(** * build_catalog.mjs: the catalog aggregation pipeline

    A shallow embedding of [scripts/build_catalog.mjs].  The script lists the
    public repositories of an organisation, filters them by name, probes the
    published site of each one for [oer-assignments.json], normalises the
    records it finds and writes them, sorted, to one catalog file.

    JavaScript values are embedded as an inductive type of JSON values,
    strings as sequences of UTF-16 code units, exceptions as an error monad
    and the network as an oracle that answers each request given the
    requests made before it. *)

From Stdlib Require Import String Ascii.
From Stdlib Require Import List Bool ZArith NArith Lia.
From Stdlib Require Import Permutation Sorted.
From Stdlib Require Import PrimFloat.
From Stdlib Require DecimalString.
Import ListNotations.

Set Implicit Arguments.
Set Warnings "-register-all".

(** ** Strings *)

(** A JavaScript string is a sequence of UTF-16 code units. *)
Definition jsstring := list N.

(** The code units of an ASCII literal of the source. *)
Definition lit (s : string) : jsstring :=
  map N_of_ascii (list_ascii_of_string s).

Arguments lit s : simpl never.

Definition jsstring_eqb (a b : jsstring) : bool :=
  if list_eq_dec N.eq_dec a b then true else false.

(** The decimal digits of a non-negative integer, as a template literal
    prints it. *)
Definition dec (n : N) : jsstring :=
  lit (DecimalString.NilZero.string_of_uint (N.to_uint n)).

(** The class [\s] of a regular expression without the [u] flag: the
    WhiteSpace and LineTerminator code points of ECMAScript. *)
Definition is_whitespace (c : N) : bool :=
  ((9 <=? c) && (c <=? 13) || (c =? 32) || (c =? 160) || (c =? 5760)
   || (8192 <=? c) && (c <=? 8202) || (c =? 8232) || (c =? 8233)
   || (c =? 8239) || (c =? 8287) || (c =? 12288) || (c =? 65279))%N.

Definition hyphen : N := 45.

(** [s.replace(/\s+/g, "-")]: scanning from the left, every maximal run of
    whitespace is one match and is replaced by one hyphen.  [in_run] tells
    that the previous code unit belonged to the match being consumed. *)
Fixpoint replace_runs (in_run : bool) (s : jsstring) : jsstring :=
  match s with
  | [] => []
  | c :: s' =>
      if is_whitespace c
      then if in_run then replace_runs true s'
           else hyphen :: replace_runs true s'
      else c :: replace_runs false s'
  end.

Definition replace_whitespace (s : jsstring) : jsstring := replace_runs false s.

(** The string iterator yields code points: a high surrogate followed by a
    low surrogate is one element, every other code unit is one on its own. *)
Definition is_high_surrogate (c : N) : bool := ((55296 <=? c) && (c <=? 56319))%N.
Definition is_low_surrogate (c : N) : bool := ((56320 <=? c) && (c <=? 57343))%N.

Fixpoint code_points (s : jsstring) : list jsstring :=
  match s with
  | [] => []
  | c :: s' =>
      match s' with
      | d :: s'' =>
          if is_high_surrogate c && is_low_surrogate d
          then [c; d] :: match code_points s' with _ :: r => r | [] => [] end
          else [c] :: code_points s'
      | [] => [[c]]
      end
  end.

(** ** Values *)

(** What [JSON.parse] produces, and [undefined], which reading a missing
    property produces.  A number is an IEEE 754 double.  An object lists its
    own properties; the first binding of a key is the one in effect. *)
Inductive value : Type :=
| VUndefined
| VNull
| VBool (b : bool)
| VNum (x : float)
| VStr (s : jsstring)
| VArr (elems : list value)
| VObj (props : list (jsstring * value)).

(** ToBoolean. *)
Definition truthy (v : value) : bool :=
  match v with
  | VUndefined | VNull => false
  | VBool b => b
  | VNum x => negb (PrimFloat.eqb x 0 || negb (PrimFloat.eqb x x))
  | VStr s => match s with [] => false | _ => true end
  | VArr _ | VObj _ => true
  end.

Definition nullish (v : value) : bool :=
  match v with VUndefined | VNull => true | _ => false end.

(** [a || b] and [a ?? b] where evaluating [b] cannot throw. *)
Definition or_else (a b : value) : value := if truthy a then a else b.
Definition coalesce (a b : value) : value := if nullish a then b else a.

Fixpoint lookup (k : jsstring) (props : list (jsstring * value)) : value :=
  match props with
  | [] => VUndefined
  | (k', v) :: rest => if jsstring_eqb k k' then v else lookup k rest
  end.

(** ** Exceptions *)

Inductive error : Type :=
| TypeError
| SyntaxError
| FsError
| Error (message : jsstring).

Inductive result (A : Type) : Type :=
| Ok (a : A)
| Throw (e : error).
Arguments Throw {A} e.

Definition bind {A B} (r : result A) (k : A -> result B) : result B :=
  match r with
  | Ok a => k a
  | Throw e => Throw e
  end.

Declare Scope js_scope.
Delimit Scope js_scope with js.
Notation "x <- e ;; k" := (bind e (fun x => k))
  (at level 61, e at next level, right associativity) : js_scope.
Local Open Scope js_scope.

(** [v.k] for the property names the script reads ([id], [title], [items],
    [name], ...): none of them is defined on a built-in prototype, so on an
    object the own property or [undefined] results, on any other value but
    [null] and [undefined], [undefined]. *)
Definition get (v : value) (k : string) : result value :=
  match v with
  | VUndefined | VNull => Throw TypeError
  | VObj props => Ok (lookup (lit k) props)
  | _ => Ok VUndefined
  end.

(** [v?.k]. *)
Definition get_opt (v : value) (k : string) : value :=
  match v with
  | VObj props => lookup (lit k) props
  | _ => VUndefined
  end.

(** [Array.isArray(v) ? v : []]. *)
Definition array_or_empty (v : value) : list value :=
  match v with
  | VArr elems => elems
  | _ => []
  end.

(** ** Configuration from the environment *)

(** [token] and [org] are [process.env] entries, absent or strings;
    [allowlist] and [blocklist] are the arrays of names parsed from
    [REPO_ALLOWLIST] and [REPO_BLOCKLIST]. *)
Record Config : Type := {
  token : option jsstring;
  org : option jsstring;
  allowlist : list jsstring;
  blocklist : list jsstring
}.

Definition env_value (e : option jsstring) : value :=
  match e with
  | Some s => VStr s
  | None => VUndefined
  end.

(** An environment entry inside a template literal. *)
Definition env_string (e : option jsstring) : jsstring :=
  match e with
  | Some s => s
  | None => lit "undefined"
  end.

(** [list.includes(v)] on an array of strings: SameValueZero equates [v]
    with an entry only when [v] is that string. *)
Definition includes (l : list jsstring) (v : value) : bool :=
  match v with
  | VStr s => existsb (jsstring_eqb s) l
  | _ => false
  end.

(** ** The lists of the environment *)

Definition comma : N := 44.

(** [s.split(",")]: the segments between the commas, at least one. *)
Fixpoint split_commas (s : jsstring) : list jsstring :=
  match s with
  | [] => [[]]
  | c :: s' =>
      if (c =? comma)%N then [] :: split_commas s'
      else match split_commas s' with
           | seg :: segs => (c :: seg) :: segs
           | [] => [[c]]
           end
  end.

(** [s.trim()] removes the whitespace, that of [\s], at both ends. *)
Fixpoint trim_start (s : jsstring) : jsstring :=
  match s with
  | [] => []
  | c :: s' => if is_whitespace c then trim_start s' else s
  end.

Fixpoint trim_end (s : jsstring) : jsstring :=
  match s with
  | [] => []
  | c :: s' =>
      match trim_end s' with
      | [] => if is_whitespace c then [] else [c]
      | kept => c :: kept
      end
  end.

Definition trim (s : jsstring) : jsstring := trim_end (trim_start s).

(** [(e || "").split(",").map(s => s.trim()).filter(Boolean)] on an entry
    [e] of [process.env]. *)
Definition parse_list (e : option jsstring) : list jsstring :=
  filter (fun s => match s with [] => false | _ => true end)
    (map trim (split_commas (match e with Some s => s | None => [] end))).

(** The configuration that the script reads from [GH_TOKEN], [ORG],
    [REPO_ALLOWLIST] and [REPO_BLOCKLIST]. *)
Definition config_of_env (gh_token org_var repo_allowlist repo_blocklist
                            : option jsstring) : Config :=
  {| token := gh_token; org := org_var;
     allowlist := parse_list repo_allowlist;
     blocklist := parse_list repo_blocklist |}.

(** ** Repository filter *)

Definition allowed (cfg : Config) (name : value) : bool :=
  if match allowlist cfg with [] => false | _ => true end
     && negb (includes (allowlist cfg) name)
  then false
  else if includes (blocklist cfg) name then false
  else true.

(** [repos.filter(r => allowed(r.name))]: reading [name] throws on a [null]
    entry, and that ends the filtering. *)
Fixpoint filter_repos (cfg : Config) (repos : list value) : result (list value) :=
  match repos with
  | [] => Ok []
  | r :: rest =>
      name <- get r "name" ;;
      kept <- filter_repos cfg rest ;;
      Ok (if allowed cfg name then r :: kept else kept)
  end.

(** ** The host *)

(** The library functions of the JavaScript runtime that the script calls
    and that depend on Unicode tables, the default locale, the printing of
    doubles or the sorting algorithm of the engine.  They are parameters of
    the embedding. *)
Class Host : Type := {
  (** [String.prototype.toLowerCase] *)
  toLowerCase : jsstring -> jsstring;
  (** [String.prototype.localeCompare] in the default locale: negative,
      zero or positive *)
  localeCompare : jsstring -> jsstring -> Z;
  (** [Number.prototype.toString] *)
  numberToString : float -> jsstring;
  (** [Array.prototype.sort] of the engine on an array of objects, where
      ECMAScript leaves it to the implementation: the comparison function
      throws on some elements or is not consistent on them.  Which pairs
      are compared, hence whether a throwing comparison is reached, and
      the order of the result are then the engine's. *)
  array_sort : forall A : Type,
      (A -> A -> result Z) -> list A -> result (list A)
}.

Arguments array_sort {Host} {A} comparefn elems.

Definition ascii_lower (c : N) : N :=
  if ((65 <=? c) && (c <=? 90))%N then (c + 32)%N else c.

Fixpoint compare_units (a b : jsstring) : Z :=
  match a, b with
  | [], [] => 0
  | [], _ :: _ => -1
  | _ :: _, [] => 1
  | x :: a', y :: b' =>
      match N.compare x y with
      | Lt => -1
      | Gt => 1
      | Eq => compare_units a' b'
      end
  end.

(** One sort that ECMAScript allows, that of the V8 engine on an array of
    fewer than 64 elements (longer arrays, which V8 merges from runs, are
    sorted here in the same way).  The comparison function is always called
    with the later element first.  The longest run at the start of the
    array, ascending or strictly descending, is found by comparing each
    element with the one before it, and reversed if it descends; each
    element behind the run is then inserted among the sorted elements
    before it, at the place that a binary search finds.  An exception of
    the comparison function ends the sort. *)
Fixpoint run_rest {A : Type} (comparefn : A -> A -> result Z)
    (descending : bool) (previous : A) (rest : list A) : result nat :=
  match rest with
  | [] => Ok 0
  | current :: rest' =>
      c <- comparefn current previous ;;
      if (if descending then (0 <=? c)%Z else (c <? 0)%Z)
      then Ok 0
      else (n <- run_rest comparefn descending current rest' ;; Ok (S n))
  end.

(** The length of the run and the array with its run made ascending. *)
Definition count_and_make_run {A : Type} (comparefn : A -> A -> result Z)
    (elems : list A) : result (nat * list A) :=
  match elems with
  | first :: second :: rest =>
      c <- comparefn second first ;;
      let descending := (c <? 0)%Z in
      n <- run_rest comparefn descending second rest ;;
      let run := S (S n) in
      Ok (run, if descending
               then rev (firstn run elems) ++ skipn run elems
               else elems)
  | _ => Ok (length elems, elems)
  end.

(** The place of [pivot] among [sorted], between [left] and [right]. *)
Fixpoint search {A : Type} (comparefn : A -> A -> result Z) (pivot : A)
    (sorted : list A) (fuel left right : nat) : result nat :=
  match fuel with
  | O => Ok left
  | S fuel' =>
      if (left <? right)%nat
      then let mid := (left + (right - left) / 2)%nat in
           c <- comparefn pivot (nth mid sorted pivot) ;;
           if (c <? 0)%Z
           then search comparefn pivot sorted fuel' left mid
           else search comparefn pivot sorted fuel' (S mid) right
      else Ok left
  end.

Fixpoint binary_insertion {A : Type} (comparefn : A -> A -> result Z)
    (sorted pending : list A) : result (list A) :=
  match pending with
  | [] => Ok sorted
  | pivot :: rest =>
      place <- search comparefn pivot sorted (length sorted) 0 (length sorted) ;;
      binary_insertion comparefn
        (firstn place sorted ++ pivot :: skipn place sorted) rest
  end.

Definition insertion_engine (A : Type) (comparefn : A -> A -> result Z)
    (elems : list A) : result (list A) :=
  made <- count_and_make_run comparefn elems ;;
  binary_insertion comparefn (firstn (fst made) (snd made))
    (skipn (fst made) (snd made)).

(** A host for the closed examples: the ASCII case mapping, and the order
    of code units, which is how every locale orders the strings compared
    there.  No example prints a number, and [numberToString] is a
    constant.  Its engine sorts by binary insertion. *)
#[export] Instance test_host : Host := {
  toLowerCase := map ascii_lower;
  localeCompare := compare_units;
  numberToString := fun _ => lit "0";
  array_sort := insertion_engine
}.

Section Pipeline.

Context {host : Host}.

(** ToString on a JSON value.  An array joins its elements with commas,
    [null] and [undefined] elements printing as nothing; an object prints
    through [Object.prototype.toString] unless an own [toString] property,
    which cannot be a function, hides it. *)
Fixpoint ToString (v : value) : result jsstring :=
  match v with
  | VUndefined => Ok (lit "undefined")
  | VNull => Ok (lit "null")
  | VBool true => Ok (lit "true")
  | VBool false => Ok (lit "false")
  | VNum x => Ok (numberToString x)
  | VStr s => Ok s
  | VArr elems =>
      (fix join (l : list value) : result jsstring :=
         match l with
         | [] => Ok []
         | x :: rest =>
             a <- (if nullish x then Ok [] else ToString x) ;;
             match rest with
             | [] => Ok a
             | _ :: _ => b <- join rest ;; Ok (a ++ lit "," ++ b)
             end
         end) elems
  | VObj props =>
      if existsb (fun kv => jsstring_eqb (fst kv) (lit "toString")) props
      then Throw TypeError
      else Ok (lit "[object Object]")
  end.

(** ** Item normalizer *)

Record CatalogItem : Type := {
  id : value;
  title : value;
  course_code : value;
  page_url : value;
  summary : value;
  topics : list value;
  software : list value;
  keywords : list value;
  license : value;
  learning_outcomes : list value;
  blooms_verbs : list value;
  blooms_levels : list value;
  repo_name : value;
  repo_url : value
}.

(** [a || b] where evaluating [b] may throw. *)
Definition or_try (a : value) (b : result value) : result value :=
  if truthy a then Ok a else b.

(** [v.toLowerCase()]: only a string has the method; on any other value the
    property is missing or not a function and the call throws. *)
Definition call_toLowerCase (v : value) : result jsstring :=
  match v with
  | VStr s => Ok (toLowerCase s)
  | _ => Throw TypeError
  end.

(** [`${repo.name}-${(it.title || "item").toLowerCase().replace(/\s+/g, "-")}`] *)
Definition synthesized_id (it repo : value) : result value :=
  name <- get repo "name" ;;
  prefix <- ToString name ;;
  it_title <- get it "title" ;;
  lowered <- call_toLowerCase (or_else it_title (VStr (lit "item"))) ;;
  Ok (VStr (prefix ++ lit "-" ++ replace_whitespace lowered)).

(** [`https://${org}.github.io/${repo.name}/`] *)
Definition site_base (cfg : Config) (repo : value) : result jsstring :=
  name <- get repo "name" ;;
  name_s <- ToString name ;;
  Ok (lit "https://" ++ env_string (org cfg) ++ lit ".github.io/"
        ++ name_s ++ lit "/").

Definition normalizeItem (cfg : Config) (it repo : value) : result CatalogItem :=
  it_id <- get it "id" ;;
  id' <- or_try it_id (synthesized_id it repo) ;;
  it_title <- get it "title" ;;
  title' <- or_try it_title (get repo "name") ;;
  it_course_code <- get it "course_code" ;;
  it_page_url <- get it "page_url" ;;
  page_url' <- or_try it_page_url
                 (it_site_url <- get it "site_url" ;;
                  or_try it_site_url
                    (base <- site_base cfg repo ;; Ok (VStr base))) ;;
  it_summary <- get it "summary" ;;
  it_topics <- get it "topics" ;;
  it_software <- get it "software" ;;
  it_keywords <- get it "keywords" ;;
  it_license <- get it "license" ;;
  it_learning_outcomes <- get it "learning_outcomes" ;;
  it_blooms_verbs <- get it "blooms_verbs" ;;
  it_blooms_levels <- get it "blooms_levels" ;;
  repo_name' <- get repo "name" ;;
  repo_url' <- get repo "html_url" ;;
  Ok {| id := id';
        title := title';
        course_code := coalesce it_course_code VNull;
        page_url := page_url';
        summary := coalesce it_summary VNull;
        topics := array_or_empty it_topics;
        software := array_or_empty it_software;
        keywords := array_or_empty it_keywords;
        license := or_else it_license (VStr (lit "CC-BY-4.0"));
        learning_outcomes := array_or_empty it_learning_outcomes;
        blooms_verbs := array_or_empty it_blooms_verbs;
        blooms_levels := array_or_empty it_blooms_levels;
        repo_name := repo_name';
        repo_url := repo_url' |}.

(** ** Sorting *)

(** The receiver of [.localeCompare(...)]: any value but a string has no
    such method, and the call throws. *)
Definition call_localeCompare (recv arg : value) : result Z :=
  match recv with
  | VStr s => that <- ToString arg ;; Ok (localeCompare s that)
  | _ => Throw TypeError
  end.

(** The comparison function given to [items.sort]: the second comparison
    is evaluated only when the first yields zero. *)
Definition compare_items (a b : CatalogItem) : result Z :=
  c <- call_localeCompare (or_else (course_code a) (VStr []))
                          (or_else (course_code b) (VStr [])) ;;
  if (c =? 0)%Z then call_localeCompare (title a) (title b) else Ok c.

(** The items on which the comparison function cannot throw: the course
    code is a string or falsy, and is then compared as its string or the
    empty string, and the title is a string. *)
Definition is_string (v : value) : bool :=
  match v with
  | VStr _ => true
  | _ => false
  end.

Definition string_of (v : value) : jsstring :=
  match v with
  | VStr s => s
  | _ => []
  end.

Definition code_key (x : CatalogItem) : jsstring := string_of (course_code x).

Definition title_key (x : CatalogItem) : jsstring := string_of (title x).

Definition sortable (x : CatalogItem) : bool :=
  (is_string (course_code x) || negb (truthy (course_code x)))
  && is_string (title x).

(** The number that the comparison function returns, where it returns. *)
Definition order (a b : CatalogItem) : Z :=
  match compare_items a b with
  | Ok c => c
  | Throw _ => 0%Z
  end.

(** The stable sorted order: each element, from the last to the first, is
    put in front of the sorted elements behind it and moved past those
    that, compared as the first argument with it, precede it. *)
Fixpoint insert_item (x : CatalogItem) (behind : list CatalogItem)
  : list CatalogItem :=
  match behind with
  | [] => [x]
  | y :: rest =>
      if (order y x <? 0)%Z then y :: insert_item x rest
      else x :: y :: rest
  end.

Fixpoint stable_sort (items : list CatalogItem) : list CatalogItem :=
  match items with
  | [] => []
  | x :: rest => insert_item x (stable_sort rest)
  end.

(** [items.sort(compare)].  ECMAScript fixes what the sort does in two
    cases.  An array of fewer than two elements is sorted without any
    comparison.  When the comparison function is a consistent comparator
    for the elements, the result is the stable sorted order, in every
    engine and whichever pairs it compares; that is the case of items on
    which the comparison function cannot throw, [localeCompare] being a
    consistent comparison of strings.  In every other case the comparisons
    that are made, hence whether one of them throws, and the order of the
    result are implementation-defined, and are those of the engine of the
    host. *)
Definition sort_items (items : list CatalogItem) : result (list CatalogItem) :=
  if (length items <? 2)%nat || forallb sortable items
  then Ok (stable_sort items)
  else array_sort compare_items items.

End Pipeline.

(** ** The network *)

(** A call of [fetch]: by [gh], with the API headers; by [fetchIfExists];
    or on the [download_url] of the fallback. *)
Inductive request : Type :=
| ApiGet (url authorization : jsstring)
| SiteGet (url : jsstring)
| RawGet (target : value).

(** Equality of the requests of the examples, which carry strings. *)
Definition request_eqb (a b : request) : bool :=
  match a, b with
  | ApiGet u h, ApiGet u' h' => jsstring_eqb u u' && jsstring_eqb h h'
  | SiteGet u, SiteGet u' => jsstring_eqb u u'
  | _, _ => false
  end.

(** A response: its status, its body as text when it can be read, and its
    body as JSON when it can be read and parsed. *)
Record Response : Type := {
  status : N;
  body_text : option jsstring;
  body_json : option value
}.

(** What the promise of a call of [fetch] settles to. *)
Inductive settled : Type :=
| Rejected
| Fulfilled (r : Response).

(** [r.ok] *)
Definition ok (r : Response) : bool :=
  ((200 <=? status r) && (status r <=? 299))%N.

(** The outside world answers a call given the calls made before it, the
    latest first. *)
Definition World : Type := list request -> request -> settled.

(** A computation that calls [fetch], may throw, and leaves the calls it
    made on the log whether it throws or not. *)
Definition IO (A : Type) : Type := list request -> result A * list request.

Definition io_ret {A} (a : A) : IO A := fun log => (Ok a, log).

Definition io_bind {A B} (m : IO A) (k : A -> IO B) : IO B :=
  fun log =>
    match m log with
    | (Ok a, log') => k a log'
    | (Throw e, log') => (Throw e, log')
    end.

Definition lift {A} (r : result A) : IO A := fun log => (r, log).

Definition throw {A} (e : error) : IO A := lift (Throw e).

(** [try { m } catch (e) { handler e }], and [m.catch(handler)] *)
Definition try_catch {A} (m : IO A) (handler : error -> IO A) : IO A :=
  fun log =>
    match m log with
    | (Ok a, log') => (Ok a, log')
    | (Throw e, log') => handler e log'
    end.

Notation "x <~ e ;; k" := (io_bind e (fun x => k))
  (at level 61, e at next level, right associativity) : js_scope.

(** [r.json()] and [r.text()] *)
Definition json (r : Response) : IO value :=
  match body_json r with
  | Some v => io_ret v
  | None => throw SyntaxError
  end.

Definition text (r : Response) : IO jsstring :=
  match body_text r with
  | Some t => io_ret t
  | None => throw TypeError
  end.

Definition per_page : N := 100.

Record Catalog : Type := {
  catalog_org : jsstring;
  generated_at : jsstring;
  item_count : nat;
  items : list CatalogItem
}.

(** What is outside the script: the network, the clock read by
    [new Date().toISOString()], and whether [fs.mkdir] and [fs.writeFile]
    succeed. *)
Record Environment : Type := {
  world : World;
  now : jsstring;
  mkdir_ok : bool;
  writeFile_ok : bool
}.

(** How a run ends: the exit status, the error printed by the final
    [catch], the catalog stored in [assets/assignments.json] if
    [fs.writeFile] stored one, and the calls of [fetch], the latest first. *)
Record Outcome : Type := {
  exit_code : Z;
  logged : option error;
  written : option Catalog;
  fetches : list request
}.

Section Run.

Context {host : Host}.
Variable cfg : Config.
Variable env : Environment.

(** A rejected [fetch] throws a [TypeError] at its [await]. *)
Definition fetch (req : request) : IO Response :=
  fun log =>
    (match world env log req with
     | Rejected => Throw TypeError
     | Fulfilled r => Ok r
     end, req :: log).

Definition api_request (path : jsstring) : request :=
  ApiGet (lit "https://api.github.com" ++ path)
         (lit "Bearer " ++ env_string (token cfg)).

Definition api_error (status : N) (path body : jsstring) : error :=
  Error (lit "GitHub API " ++ dec status ++ lit " on " ++ path
           ++ lit ": " ++ body).

Definition gh (path : jsstring) : IO value :=
  r <~ fetch (api_request path) ;;
  if negb (ok r)
  then body <~ try_catch (text r) (fun _ => io_ret []) ;;
       throw (api_error (status r) path body)
  else json r.

(** ** Repository lister *)

Definition repos_path (org : jsstring) (page : N) : jsstring :=
  lit "/orgs/" ++ org ++ lit "/repos?per_page=" ++ dec per_page
    ++ lit "&page=" ++ dec page ++ lit "&type=public&sort=full_name".

(** [...v] in an argument list, and [for (const x of v)]: an array yields
    its elements, a string its code points, and no other JSON value is
    iterable. *)
Definition iterate (v : value) : result (list value) :=
  match v with
  | VArr elems => Ok elems
  | VStr s => Ok (map VStr (code_points s))
  | _ => Throw TypeError
  end.

(** [v.length] of a value that [iterate] accepts. *)
Definition length_of (v : value) : N :=
  match v with
  | VArr elems => N.of_nat (length elems)
  | VStr s => N.of_nat (length s)
  | _ => 0
  end.

(** The [while (true)] loop of [listAllOrgRepos]; [None] when [fuel]
    iterations did not reach the [break]. *)
Fixpoint list_pages (fuel : nat) (org : jsstring) (page : N)
    (repos : list value) (log : list request)
  : option (result (list value) * list request) :=
  match fuel with
  | O => None
  | S fuel' =>
      match gh (repos_path org page) log with
      | (Throw e, log') => Some (Throw e, log')
      | (Ok batch, log') =>
          match iterate batch with
          | Throw e => Some (Throw e, log')
          | Ok elems =>
              if (length_of batch <? per_page)%N
              then Some (Ok (repos ++ elems), log')
              else list_pages fuel' org (page + 1) (repos ++ elems) log'
          end
      end
  end.

Definition listAllOrgRepos (fuel : nat) (org : jsstring) (log : list request)
  : option (result (list value) * list request) :=
  list_pages fuel org 1 [] log.

(** ** Per-repository probe *)

Definition fetchIfExists (url : jsstring) : IO value :=
  try_catch
    (r <~ fetch (SiteGet url) ;;
     if negb (ok r) then io_ret VNull else json r)
    (fun _ => io_ret VNull).

(** [v?.length] as a condition.  The length of an array or of a string is a
    number, falsy only when it is zero; an object has the [length] that its
    document gave it. *)
Definition truthy_length (v : value) : bool :=
  match v with
  | VArr elems => match elems with [] => false | _ => true end
  | VStr s => match s with [] => false | _ => true end
  | VObj props => truthy (lookup (lit "length") props)
  | _ => false
  end.

(** [data?.items?.length] as a condition. *)
Definition has_items (data : value) : bool :=
  truthy_length (get_opt data "items").

(** The loop over the candidates: [data] is the result of the latest
    candidate tried. *)
Fixpoint probe (candidates : list jsstring) (data : value) : IO value :=
  match candidates with
  | [] => io_ret data
  | u :: rest =>
      data' <~ fetchIfExists u ;;
      if has_items data' then io_ret data' else probe rest data'
  end.

Definition candidates (base : jsstring) : list jsstring :=
  [base ++ lit "oer-assignments.json";
   base ++ lit "docs/oer-assignments.json"].

(** [for (const it of data.items) items.push(normalizeItem(it, repo))] *)
Fixpoint normalize_all (raws : list value) (repo : value)
  : result (list CatalogItem) :=
  match raws with
  | [] => Ok []
  | it :: rest =>
      item <- normalizeItem cfg it repo ;;
      more <- normalize_all rest repo ;;
      Ok (item :: more)
  end.

(** The body of the [try] of the fallback: it reads [oer.yml] through the
    contents API and downloads it, and makes nothing of the text. *)
Definition fallback (repo : value) : IO unit :=
  name <~ lift (get repo "name") ;;
  name_s <~ lift (ToString name) ;;
  branch <~ lift (get repo "default_branch") ;;
  branch_s <~ lift (ToString (or_else branch (VStr (lit "main")))) ;;
  meta <~ gh (lit "/repos/" ++ env_string (org cfg) ++ lit "/" ++ name_s
                ++ lit "/contents/oer.yml?ref=" ++ branch_s) ;;
  let download_url := get_opt meta "download_url" in
  if truthy download_url
  then r <~ fetch (RawGet download_url) ;;
       _ <~ text r ;;
       io_ret tt
  else io_ret tt.

(** One iteration of [for (const repo of repos)]: the items found so far,
    extended by those of [repo]. *)
Definition process_repo (repo : value) (found : list CatalogItem)
  : IO (list CatalogItem) :=
  base <~ lift (site_base cfg repo) ;;
  data <~ probe (candidates base) VNull ;;
  if has_items data
  then raws <~ lift (iterate (get_opt data "items")) ;;
       fresh <~ lift (normalize_all raws repo) ;;
       io_ret (found ++ fresh)
  else _ <~ try_catch (fallback repo) (fun _ => io_ret tt) ;;
       io_ret found.

Fixpoint process_repos (repos : list value) (found : list CatalogItem)
  : IO (list CatalogItem) :=
  match repos with
  | [] => io_ret found
  | repo :: rest =>
      found' <~ process_repo repo found ;;
      process_repos rest found'
  end.

(** ** The run *)

Definition missing_env : error :=
  Error (lit "Missing GH_TOKEN or ORG env vars.").

(** The body of the asynchronous function after the check of the
    environment, up to the call of [fs.writeFile]: the catalog handed to
    it, or the exception. *)
Definition build (fuel : nat) : option (result Catalog * list request) :=
  match listAllOrgRepos fuel (env_string (org cfg)) [] with
  | None => None
  | Some (Throw e, log) => Some (Throw e, log)
  | Some (Ok listed, log) =>
      Some ((repos <~ lift (filter_repos cfg listed) ;;
             found <~ process_repos repos [] ;;
             sorted <~ lift (sort_items found) ;;
             _ <~ lift (if mkdir_ok env then Ok tt else Throw FsError) ;;
             io_ret {| catalog_org := env_string (org cfg);
                       generated_at := now env;
                       item_count := length sorted;
                       items := sorted |}) log)
  end.

(** The script: the check of the environment, the body, the write and the
    final [catch], which prints the error and exits with status 1. *)
Definition main (fuel : nat) : option Outcome :=
  if negb (truthy (env_value (token cfg))) || negb (truthy (env_value (org cfg)))
  then Some {| exit_code := 1; logged := Some missing_env;
               written := None; fetches := [] |}
  else
    match build fuel with
    | None => None
    | Some (Throw e, log) =>
        Some {| exit_code := 1; logged := Some e;
                written := None; fetches := log |}
    | Some (Ok catalog, log) =>
        if writeFile_ok env
        then Some {| exit_code := 0; logged := None;
                     written := Some catalog; fetches := log |}
        else Some {| exit_code := 1; logged := Some FsError;
                     written := None; fetches := log |}
    end.

End Run.

(** * Notions of the statements *)

(** The host lowers an ASCII string as the ASCII table does; the Unicode
    case mapping of [toLowerCase] does not depend on the locale. *)
Definition lowers_ascii (h : Host) : Prop :=
  forall s, Forall (fun c => (c < 128)%N) s ->
            @toLowerCase h s = map ascii_lower s.

Definition ends_in_whitespace (s : jsstring) : bool := is_whitespace (last s 0%N).

Definition starts_with_whitespace (s : jsstring) : bool :=
  match s with
  | c :: _ => is_whitespace c
  | [] => false
  end.

(** A consistent comparison function, as [Array.prototype.sort] expects:
    exchanging the arguments flips the sign, and "not after" is
    transitive. *)
Definition consistent {A : Type} (cmp : A -> A -> Z) : Prop :=
  (forall a b, Z.sgn (cmp a b) = (- Z.sgn (cmp b a))%Z)
  /\ (forall a b c, (cmp a b <= 0)%Z -> (cmp b c <= 0)%Z -> (cmp a c <= 0)%Z).

(** The sort of the engine returns the elements that it was given, in
    some order, as every [Array.prototype.sort] does. *)
Definition sort_permutes (h : Host) : Prop :=
  forall (A : Type) (comparefn : A -> A -> result Z) (elems sorted : list A),
    @array_sort h A comparefn elems = Ok sorted -> Permutation elems sorted.

(** The order of the catalog: by course code, then by title. *)
Definition catalog_le {host : Host} (x y : CatalogItem) : Prop :=
  (localeCompare (code_key x) (code_key y) < 0)%Z
  \/ (localeCompare (code_key x) (code_key y) = 0
      /\ localeCompare (title_key x) (title_key y) <= 0)%Z.

(** Two items that the order does not tell apart. *)
Definition tied {host : Host} (x y : CatalogItem) : bool :=
  (localeCompare (code_key x) (code_key y) =? 0)%Z
  && (localeCompare (title_key x) (title_key y) =? 0)%Z.

(** The course codes of the example, with the empty string that stands for
    [null]; the host orders them as their code units do. *)
Definition example_codes : list jsstring :=
  [[]; lit "A100"; lit "A200"; lit "B101"].

Definition orders_example_codes (h : Host) : Prop :=
  forall a b, In a example_codes -> In b example_codes ->
              Z.sgn (@localeCompare h a b) = compare_units a b.

Definition entry (code : value) (name : string) : CatalogItem :=
  {| id := VStr (lit name); title := VStr (lit name); course_code := code;
     page_url := VNull; summary := VNull;
     topics := []; software := []; keywords := [];
     license := VStr (lit "CC-BY-4.0");
     learning_outcomes := []; blooms_verbs := []; blooms_levels := [];
     repo_name := VStr (lit "demo"); repo_url := VUndefined |}.

Definition four_items : list CatalogItem :=
  [entry (VStr (lit "B101")) "x"; entry VNull "y";
   entry (VStr (lit "A200")) "z"; entry (VStr (lit "A100")) "w"].

Section RunNotions.

Context {host : Host}.
Variable cfg : Config.
Variable env : Environment.
Variable org_name : jsstring.
Variable log0 : list request.

(** The request of [listAllOrgRepos] for a page. *)
Definition page_request (page : N) : request :=
  api_request cfg (repos_path org_name page).

(** The requests for the pages [k], ..., [1], the latest first. *)
Fixpoint pages_log (k : nat) : list request :=
  match k with
  | O => []
  | S k' => page_request (N.of_nat k) :: pages_log k'
  end.

(** The answer of the world to the request for page [k + 1], made after
    the requests for the pages before it. *)
Definition page_answer (k : nat) : settled :=
  world env (pages_log k ++ log0) (page_request (N.of_nat (S k))).

(** The API answers the request for page [k + 1] with the array [batch]. *)
Definition serves_page (k : nat) (batch : list value) : Prop :=
  exists r, page_answer k = Fulfilled r /\ ok r = true
            /\ body_json r = Some (VArr batch).

(** The API answers the requests for the first pages with the arrays
    [batches], each of them full. *)
Definition serves_full_pages (batches : list (list value)) : Prop :=
  forall k, k < length batches ->
            serves_page k (nth k batches [])
            /\ (per_page <= N.of_nat (length (nth k batches [])))%N.

(** The answer lets the loop go on to the next page: a success whose body
    is an array or a string of [per_page] elements or more. *)
Definition full_page (answer : settled) : bool :=
  match answer with
  | Rejected => false
  | Fulfilled r =>
      ok r
      && match body_json r with
         | Some (VArr elems) => negb (N.of_nat (length elems) <? per_page)
         | Some (VStr s) => negb (N.of_nat (length s) <? per_page)
         | _ => false
         end
  end%N.

End RunNotions.

(** What [fetchIfExists] makes of the answer of the world to a request for
    [url]: the parsed document, or [null]. *)
Definition fetched (env : Environment) (log : list request) (url : jsstring)
  : value :=
  match world env log (SiteGet url) with
  | Rejected => VNull
  | Fulfilled r =>
      if ok r
      then match body_json r with Some v => v | None => VNull end
      else VNull
  end.

(** The log after the candidates [urls] were fetched in order. *)
Definition tried (urls : list jsstring) (log : list request) : list request :=
  rev (map SiteGet urls) ++ log.

(** None of the candidates [urls], fetched in order from [log] on, yields
    a document that passes the test of the probe. *)
Definition none_with_items (env : Environment) (log : list request)
    (urls : list jsstring) : Prop :=
  forall pre u post, urls = pre ++ u :: post ->
                     has_items (fetched env (tried pre log) u) = false.

(** The document has a non-empty [items] array. *)
Definition has_items_array (data : value) : bool :=
  match get_opt data "items" with
  | VArr (_ :: _) => true
  | _ => false
  end.

(** The raw item [raw] is found under [repo]: the probe of the site of
    [repo] returns a document that passes its test, and [raw] is an element
    of the [items] of that document. *)
Definition discovered_under {host : Host} (cfg : Config) (env : Environment)
    (repo raw : value) : Prop :=
  exists base log data log' raws,
    site_base cfg repo = Ok base
    /\ probe env (candidates base) VNull log = (Ok data, log')
    /\ has_items data = true
    /\ iterate (get_opt data "items") = Ok raws
    /\ In raw raws.

(** The only exception that the computation can throw is a [TypeError]. *)
Definition throws_type_error {A : Type} (r : result A) : Prop :=
  forall e, r = Throw e -> e = TypeError.

(** The names joined by commas, as one writes them in [REPO_ALLOWLIST]. *)
Fixpoint join_commas (names : list jsstring) : jsstring :=
  match names with
  | [] => []
  | [name] => name
  | name :: rest => name ++ comma :: join_commas rest
  end.

(** A name that the parsing of a list leaves as it is: not empty, without
    a comma, without whitespace at either end. *)
Definition clean_name (name : jsstring) : Prop :=
  name <> [] /\ ~ In comma name
  /\ starts_with_whitespace name = false /\ ends_in_whitespace name = false.

(** The entry is unset, or made of commas and whitespace only. *)
Definition blank (e : option jsstring) : Prop :=
  match e with
  | None => True
  | Some s => Forall (fun c => c = comma \/ is_whitespace c = true) s
  end.

(** Inputs of the closed examples. *)
Definition acme : Config :=
  {| token := Some (lit "secret"); org := Some (lit "acme");
     allowlist := []; blocklist := [] |}.

Definition demo : value := VObj [(lit "name", VStr (lit "demo"))].

Definition repo_object (name : string) : value :=
  VObj [(lit "name", VStr (lit name));
        (lit "html_url", VStr (lit "https://github.com/acme/" ++ lit name));
        (lit "default_branch", VStr (lit "main"))].

Definition respond (code : N) (body : option value) : settled :=
  Fulfilled {| status := code; body_text := Some (lit "Not Found");
               body_json := body |}.

Definition environment (w : World) : Environment :=
  {| world := w; now := lit "2025-01-01T00:00:00.000Z";
     mkdir_ok := true; writeFile_ok := true |}.

(** An API with a full first page and a short second page. *)
Definition full_batch : list value := repeat (repo_object "lab") 100.

Definition short_batch : list value := [repo_object "lab1"; repo_object "lab2"].

Definition two_pages : World :=
  fun _ req =>
    if request_eqb req (page_request acme (lit "acme") 1)
    then respond 200 (Some (VArr full_batch))
    else if request_eqb req (page_request acme (lit "acme") 2)
    then respond 200 (Some (VArr short_batch))
    else respond 404 None.

(** An API that refuses the listing. *)
Definition refusing : World :=
  fun _ _ => Fulfilled {| status := 403; body_text := Some (lit "rate limit");
                          body_json := None |}.

(** An organisation with the repositories [lab1], which serves one item at
    its [docs] path, and [lab2], which serves nothing. *)
Definition intro_document : value :=
  VObj [(lit "items", VArr [VObj [(lit "title", VStr (lit "Intro"))]])].

Definition two_labs : World :=
  fun _ req =>
    if request_eqb req (page_request acme (lit "acme") 1)
    then respond 200 (Some (VArr short_batch))
    else if request_eqb req
              (SiteGet (lit "https://acme.github.io/lab1/docs/oer-assignments.json"))
    then respond 200 (Some intro_document)
    else respond 404 None.

(** A site whose document has a string for [items]. *)
Definition string_document : value := VObj [(lit "items", VStr (lit "ab"))].

Definition string_items : World :=
  fun _ req =>
    if request_eqb req
         (SiteGet (lit "https://acme.github.io/demo/oer-assignments.json"))
    then respond 200 (Some string_document)
    else respond 404 None.


(** * Properties *)

Unset Implicit Arguments.

(** ** The repository filter *)

Lemma jsstring_eqb_eq (a b : jsstring) : jsstring_eqb a b = true <-> a = b.
Proof.
  unfold jsstring_eqb. destruct (list_eq_dec N.eq_dec a b); split; congruence.
Qed.

Lemma includes_In (l : list jsstring) (s : jsstring) :
  includes l (VStr s) = true <-> In s l.
Proof.
  simpl. rewrite existsb_exists. split.
  - intros [x [Hin Heq]]. apply jsstring_eqb_eq in Heq. now subst.
  - intros Hin. exists s. split; [assumption | now apply jsstring_eqb_eq].
Qed.

Lemma includes_not_In (l : list jsstring) (s : jsstring) :
  includes l (VStr s) = false <-> ~ In s l.
Proof.
  rewrite <- includes_In. destruct (includes l (VStr s)); split; congruence.
Qed.

(** C2. A name passes the filter exactly when the allow-list is empty or
    holds it, and the block-list does not hold it.  So a name on both lists
    is excluded, and with an empty allow-list every name off the block-list
    passes. *)
Theorem allowed_iff (cfg : Config) (name : jsstring) :
  (allowed cfg (VStr name) = true <->
     (allowlist cfg = [] \/ In name (allowlist cfg)) /\ ~ In name (blocklist cfg))
  /\ (In name (allowlist cfg) -> In name (blocklist cfg) ->
      allowed cfg (VStr name) = false)
  /\ (allowlist cfg = [] -> ~ In name (blocklist cfg) ->
      allowed cfg (VStr name) = true).
Proof.
  assert (Hiff : allowed cfg (VStr name) = true <->
     (allowlist cfg = [] \/ In name (allowlist cfg)) /\ ~ In name (blocklist cfg)).
  { unfold allowed.
    destruct (includes (blocklist cfg) (VStr name)) eqn:Hb;
      [apply includes_In in Hb | apply includes_not_In in Hb];
      destruct (includes (allowlist cfg) (VStr name)) eqn:Ha;
      [apply includes_In in Ha | apply includes_not_In in Ha
      |apply includes_In in Ha | apply includes_not_In in Ha];
      destruct (allowlist cfg) as [|a l] eqn:Hl; cbn [negb andb];
      split; try discriminate; try tauto; intros [[H|H] Hn]; try tauto; discriminate. }
  split; [exact Hiff | split].
  - intros Ha Hb. apply not_true_iff_false. intros E.
    apply Hiff in E. tauto.
  - intros Ha Hb. apply Hiff. tauto.
Qed.

Lemma filter_repos_objects (cfg : Config) (repos : list value) :
  forallb (fun r => negb (nullish r)) repos = true ->
  exists names,
    Forall2 (fun r n => get r "name" = Ok n) repos names /\
    filter_repos cfg repos =
      Ok (map fst (filter (fun rn => allowed cfg (snd rn)) (combine repos names))).
Proof.
  induction repos as [|r rest IH]; simpl; intros H.
  - exists []. split; [constructor | reflexivity].
  - apply andb_true_iff in H as [Hr Hrest].
    destruct (IH Hrest) as [names [HF Heq]].
    assert (Hn : exists n, get r "name" = Ok n).
    { destruct r; simpl in *; try discriminate; eauto. }
    destruct Hn as [n Hn]. exists (n :: names). split; [now constructor|].
    rewrite Hn, Heq. simpl. destruct (allowed cfg n); reflexivity.
Qed.

(** C9. Filtering is idempotent: filtering the repositories that the filter
    kept, with the same lists, keeps all of them. *)
Theorem filter_repos_idempotent (cfg : Config) (repos : list value) :
  (kept <- filter_repos cfg repos ;; filter_repos cfg kept)
  = filter_repos cfg repos.
Proof.
  induction repos as [|r rest IH]; simpl; [reflexivity|].
  destruct (get r "name") as [name|e] eqn:Hname; simpl; [|reflexivity].
  destruct (filter_repos cfg rest) as [kept|e]; simpl in *; [|reflexivity].
  destruct (allowed cfg name) eqn:Hallowed; [|exact IH].
  simpl. rewrite Hname. simpl. rewrite IH. simpl. now rewrite Hallowed.
Qed.

(** ** The item normalizer *)

Lemma test_host_lowers_ascii : lowers_ascii test_host.
Proof. intros s _. reflexivity. Qed.

Lemma lowers_item (h : Host) :
  lowers_ascii h -> @toLowerCase h (lit "item") = lit "item".
Proof.
  intros Hl. rewrite Hl; [reflexivity|].
  unfold lit. simpl. repeat constructor.
Qed.

Lemma get_Ok_get_opt (v : value) (k : string) (x : value) :
  get v k = Ok x -> forall k', get v k' = Ok (get_opt v k').
Proof. destruct v; simpl; intros E k'; try discriminate; reflexivity. Qed.

Section Normalizer.

Context {host : Host}.
Variable cfg : Config.

(** The normalizer on an object, under a repository whose name prints. *)
Lemma normalizeItem_object (props : list (jsstring * value))
    (repo name : value) (prefix : jsstring) :
  get repo "name" = Ok name ->
  ToString name = Ok prefix ->
  let it := VObj props in
  normalizeItem cfg it repo =
    (id' <- or_try (get_opt it "id")
              (lowered <- call_toLowerCase
                            (or_else (get_opt it "title") (VStr (lit "item"))) ;;
               Ok (VStr (prefix ++ lit "-" ++ replace_whitespace lowered))) ;;
     Ok {| id := id';
           title := or_else (get_opt it "title") name;
           course_code := coalesce (get_opt it "course_code") VNull;
           page_url :=
             or_else (get_opt it "page_url")
               (or_else (get_opt it "site_url")
                  (VStr (lit "https://" ++ env_string (org cfg)
                           ++ lit ".github.io/" ++ prefix ++ lit "/")));
           summary := coalesce (get_opt it "summary") VNull;
           topics := array_or_empty (get_opt it "topics");
           software := array_or_empty (get_opt it "software");
           keywords := array_or_empty (get_opt it "keywords");
           license := or_else (get_opt it "license") (VStr (lit "CC-BY-4.0"));
           learning_outcomes := array_or_empty (get_opt it "learning_outcomes");
           blooms_verbs := array_or_empty (get_opt it "blooms_verbs");
           blooms_levels := array_or_empty (get_opt it "blooms_levels");
           repo_name := name;
           repo_url := get_opt repo "html_url" |}).
Proof.
  intros Hname Hprefix it.
  pose proof (get_Ok_get_opt _ _ _ Hname "html_url") as Hurl.
  unfold normalizeItem, synthesized_id, site_base.
  rewrite Hname, Hurl. subst it. cbn [get get_opt bind].
  rewrite Hprefix. cbn [bind].
  unfold or_try, or_else.
  destruct (truthy (lookup (lit "id") props)); cbn [bind].
  - destruct (truthy (lookup (lit "title") props));
      destruct (truthy (lookup (lit "page_url") props));
      destruct (truthy (lookup (lit "site_url") props)); reflexivity.
  - destruct (call_toLowerCase _); cbn [bind]; [|reflexivity].
    destruct (truthy (lookup (lit "title") props));
      destruct (truthy (lookup (lit "page_url") props));
      destruct (truthy (lookup (lit "site_url") props)); reflexivity.
Qed.

Lemma call_toLowerCase_title (v : value) :
  truthy v = false \/ (exists s, v = VStr s) ->
  exists lowered,
    call_toLowerCase (or_else v (VStr (lit "item"))) = Ok lowered.
Proof.
  unfold or_else. intros [Hf | [s ->]].
  - rewrite Hf. simpl. eauto.
  - destruct (truthy (VStr s)); simpl; eauto.
Qed.

Lemma call_toLowerCase_throws (v : value) :
  truthy v = true -> (forall s, v <> VStr s) ->
  call_toLowerCase (or_else v (VStr (lit "item"))) = Throw TypeError.
Proof.
  unfold or_else. intros Ht Hs. rewrite Ht.
  destruct v; simpl; try reflexivity. now elim (Hs s).
Qed.

Lemma synthesized_id_throws (it repo : value) :
  truthy (get_opt it "title") = true ->
  (forall s, get_opt it "title" <> VStr s) ->
  synthesized_id it repo = Throw TypeError.
Proof.
  intros Ht Hs. unfold synthesized_id.
  assert (Hn : get repo "name" = Throw TypeError
               \/ exists name, get repo "name" = Ok name)
    by (destruct repo; simpl; eauto).
  destruct Hn as [-> | [name ->]]; cbn [bind]; [reflexivity|].
  assert (Hts : forall v, ToString v = Throw TypeError \/ exists p, ToString v = Ok p).
  { clear. fix IH 1. destruct v as [| |[]| | |elems|props]; simpl; eauto.
    - induction elems as [|x rest IHrest]; [eauto|].
      assert (Hx : (if nullish x then Ok [] else ToString x) = Throw TypeError
                   \/ exists p, (if nullish x then Ok [] else ToString x) = Ok p).
      { destruct (nullish x); [eauto | apply IH]. }
      destruct Hx as [-> | [p ->]]; cbn [bind]; [now left|].
      destruct rest as [|y rest']; [eauto|].
      destruct IHrest as [-> | [q ->]]; cbn [bind]; eauto.
    - destruct (existsb _ props); eauto. }
  destruct (Hts name) as [-> | [p ->]]; cbn [bind]; [reflexivity|].
  destruct it; simpl in Ht; try discriminate.
  cbn [get bind]. rewrite call_toLowerCase_throws; [reflexivity | exact Ht | exact Hs].
Qed.

End Normalizer.

(** ** Replacing whitespace runs *)

Lemma replace_runs_no_whitespace (w : jsstring) (b : bool) :
  Forall (fun c => is_whitespace c = false) w -> replace_runs b w = w.
Proof.
  intros Hw. revert b. induction Hw as [|c w Hc _ IH]; intros b; simpl.
  - reflexivity.
  - rewrite Hc. now rewrite IH.
Qed.

Lemma replace_runs_start (v : jsstring) :
  starts_with_whitespace v = false -> replace_runs true v = replace_runs false v.
Proof. destruct v as [|c v]; simpl; [reflexivity|]. now intros ->. Qed.

Lemma replace_runs_whitespace (ws v : jsstring) (b : bool) :
  ws <> [] -> Forall (fun c => is_whitespace c = true) ws ->
  replace_runs b (ws ++ v) =
    (if b then [] else [hyphen]) ++ replace_runs true v.
Proof.
  intros Hne Hws. revert b Hne.
  induction Hws as [|c ws Hc Hws IH]; intros b Hne; [congruence|].
  simpl. rewrite Hc. destruct ws as [|d ws].
  - simpl. now destruct b.
  - rewrite (IH true) by discriminate. now destruct b.
Qed.

Lemma replace_runs_prefix (u rest : jsstring) (b : bool) :
  u <> [] -> ends_in_whitespace u = false ->
  replace_runs b (u ++ rest) = replace_runs b u ++ replace_runs false rest.
Proof.
  revert b. induction u as [|c u IH]; intros b Hne He; [congruence|].
  destruct (list_eq_dec N.eq_dec u []) as [-> | Hu].
  - unfold ends_in_whitespace in He. simpl in *. now rewrite He.
  - assert (He' : ends_in_whitespace u = false).
    { unfold ends_in_whitespace in *. destruct u; [congruence | exact He]. }
    simpl. destruct (is_whitespace c); [destruct b|];
      rewrite IH by assumption; reflexivity.
Qed.

(** ** The item normalizer: the claims *)

(** C3, as amended.  The normalizer returns a complete item for every raw
    object whose [id] is truthy or whose [title] is falsy or a string, under
    a repository whose name prints; it throws a [TypeError] when [id] is
    falsy and [title] is a truthy value other than a string.  For the empty
    object under [{name: "demo"}] and organisation [acme] the item holds the
    defaults. *)
Theorem normalizeItem_returns (host : Host) (Hlower : lowers_ascii host) :
  (forall cfg props repo name prefix,
      get repo "name" = Ok name -> ToString name = Ok prefix ->
      truthy (get_opt (VObj props) "id") = true
      \/ truthy (get_opt (VObj props) "title") = false
      \/ (exists s, get_opt (VObj props) "title" = VStr s) ->
      exists item, normalizeItem cfg (VObj props) repo = Ok item)
  /\ (forall cfg props repo,
        truthy (get_opt (VObj props) "id") = false ->
        truthy (get_opt (VObj props) "title") = true ->
        (forall s, get_opt (VObj props) "title" <> VStr s) ->
        normalizeItem cfg (VObj props) repo = Throw TypeError)
  /\ (forall cfg, org cfg = Some (lit "acme") ->
        normalizeItem cfg (VObj []) demo =
          Ok {| id := VStr (lit "demo-item");
                title := VStr (lit "demo");
                course_code := VNull;
                page_url := VStr (lit "https://acme.github.io/demo/");
                summary := VNull;
                topics := []; software := []; keywords := [];
                license := VStr (lit "CC-BY-4.0");
                learning_outcomes := [];
                blooms_verbs := []; blooms_levels := [];
                repo_name := VStr (lit "demo");
                repo_url := VUndefined |}).
Proof.
  split; [|split].
  - intros cfg props repo name prefix Hname Hprefix Hcase.
    rewrite (normalizeItem_object cfg props repo name prefix Hname Hprefix).
    unfold or_try. destruct (truthy (get_opt (VObj props) "id")) eqn:Hid;
      cbn [bind]; [eauto|].
    destruct Hcase as [Hcase|Hcase]; [discriminate|].
    destruct (call_toLowerCase_title _ Hcase) as [lowered ->]. cbn [bind]. eauto.
  - intros cfg props repo Hid Ht Hs. unfold normalizeItem.
    cbn [get get_opt bind] in *. unfold or_try at 1. rewrite Hid.
    rewrite (synthesized_id_throws (VObj props) repo Ht Hs). reflexivity.
  - intros cfg Horg.
    rewrite (normalizeItem_object cfg [] demo (VStr (lit "demo"))
               (lit "demo") eq_refl eq_refl).
    rewrite Horg. cbn [get_opt lookup or_try or_else truthy bind
                         call_toLowerCase coalesce nullish array_or_empty].
    rewrite (lowers_item _ Hlower). reflexivity.
Qed.

Lemma normalizeItem_returns_witness :
  lowers_ascii test_host
  /\ normalizeItem (host := test_host) acme (VObj []) demo =
       Ok {| id := VStr (lit "demo-item");
             title := VStr (lit "demo");
             course_code := VNull;
             page_url := VStr (lit "https://acme.github.io/demo/");
             summary := VNull;
             topics := []; software := []; keywords := [];
             license := VStr (lit "CC-BY-4.0");
             learning_outcomes := [];
             blooms_verbs := []; blooms_levels := [];
             repo_name := VStr (lit "demo");
             repo_url := VUndefined |}.
Proof.
  split.
  - exact test_host_lowers_ascii.
  - apply (normalizeItem_returns _ test_host_lowers_ascii). reflexivity.
Defined.

(** C3 as stated fails: the raw object [{title: 5}] makes the normalizer
    throw. *)
Lemma normalizeItem_throws_on_number_title :
  normalizeItem (host := test_host) acme
    (VObj [(lit "title", VNum 5%float)]) demo = Throw TypeError.
Proof. vm_compute. reflexivity. Qed.

(** C7.  When the raw item has no [id] (or a falsy one), the [id] of the
    item is the repository name, a hyphen, and the lowercased title with
    every whitespace run replaced by one hyphen; when the title is absent
    too (or falsy), the word [item] stands for it, which gives the
    repository name followed by [-item].  The replacement leaves a string
    without whitespace as it is and turns a run between two parts into one
    hyphen between their replacements. *)
Theorem normalizeItem_synthesizes_id (host : Host) (cfg : Config)
    (props : list (jsstring * value)) (repo : value) (name : jsstring) :
  get repo "name" = Ok (VStr name) ->
  truthy (get_opt (VObj props) "id") = false ->
  (forall t, get_opt (VObj props) "title" = VStr t -> t <> [] ->
     exists item,
       normalizeItem cfg (VObj props) repo = Ok item
       /\ id item = VStr (name ++ lit "-" ++ replace_whitespace (toLowerCase t)))
  /\ (truthy (get_opt (VObj props) "title") = false ->
      exists item,
        normalizeItem cfg (VObj props) repo = Ok item
        /\ id item = VStr (name ++ lit "-"
                             ++ replace_whitespace (toLowerCase (lit "item")))
        /\ (lowers_ascii host -> id item = VStr (name ++ lit "-item")))
  /\ (forall w, Forall (fun c => is_whitespace c = false) w ->
                replace_whitespace w = w)
  /\ (forall u ws v,
        ws <> [] -> Forall (fun c => is_whitespace c = true) ws ->
        ends_in_whitespace u = false -> starts_with_whitespace v = false ->
        replace_whitespace (u ++ ws ++ v)
        = replace_whitespace u ++ hyphen :: replace_whitespace v).
Proof.
  intros Hname Hid.
  pose proof (normalizeItem_object cfg props repo (VStr name) name Hname eq_refl)
    as Heq. cbv zeta in Heq.
  unfold or_try in Heq. rewrite Hid in Heq.
  repeat split.
  - intros t Ht Hne. rewrite Heq. unfold or_else. rewrite Ht.
    destruct t as [|c t]; [congruence|]. cbn [truthy call_toLowerCase bind].
    eexists. split; reflexivity.
  - intros Ht. rewrite Heq. unfold or_else at 1. rewrite Ht.
    cbn [call_toLowerCase bind]. eexists. split; [reflexivity|].
    split; [reflexivity|]. intros Hl. cbn [id].
    rewrite (lowers_item _ Hl). reflexivity.
  - intros w Hw. now apply replace_runs_no_whitespace.
  - intros u ws v Hne Hws Hu Hv. unfold replace_whitespace.
    destruct (list_eq_dec N.eq_dec u []) as [-> | Hnil].
    + cbn [app replace_runs]. rewrite replace_runs_whitespace by assumption.
      now rewrite replace_runs_start.
    + rewrite replace_runs_prefix by assumption.
      rewrite replace_runs_whitespace by assumption.
      now rewrite replace_runs_start.
Qed.

Lemma normalizeItem_synthesizes_id_witness :
  let props := [(lit "title", VStr (lit "Intro  Lab 1"))] in
  (exists item,
      normalizeItem (host := test_host) acme (VObj props) demo = Ok item
      /\ id item = VStr (lit "demo-intro-lab-1"))
  /\ replace_whitespace (lit "Intro" ++ lit "  " ++ lit "Lab")
     = replace_whitespace (lit "Intro") ++ hyphen :: replace_whitespace (lit "Lab").
Proof.
  intros props.
  destruct (normalizeItem_synthesizes_id test_host acme props demo (lit "demo")
              eq_refl eq_refl) as [Htitle [_ [_ Hruns]]].
  split.
  - apply (Htitle (lit "Intro  Lab 1")); [reflexivity | discriminate].
  - apply Hruns; [discriminate | repeat constructor | reflexivity | reflexivity].
Defined.

(** C10.  A falsy raw [id], [title], [page_url], [site_url] or [license]
    (the empty string, zero, [false], [null], [undefined]) counts as absent
    and the fallback applies, while [course_code] and [summary] become
    [null] only when they are [null] or [undefined]: an empty string there
    is kept. *)
Theorem normalizeItem_defaulting (host : Host) (cfg : Config)
    (props : list (jsstring * value)) (repo name : value) (prefix : jsstring) :
  let it := VObj props in
  get repo "name" = Ok name ->
  ToString name = Ok prefix ->
  truthy (get_opt it "id") = true \/ truthy (get_opt it "title") = false
  \/ (exists s, get_opt it "title" = VStr s) ->
  exists item,
    normalizeItem cfg it repo = Ok item
    /\ (if truthy (get_opt it "id") then id item = get_opt it "id"
        else Ok (id item) = synthesized_id it repo)
    /\ title item = (if truthy (get_opt it "title") then get_opt it "title" else name)
    /\ page_url item =
         (if truthy (get_opt it "page_url") then get_opt it "page_url"
          else if truthy (get_opt it "site_url") then get_opt it "site_url"
          else VStr (lit "https://" ++ env_string (org cfg) ++ lit ".github.io/"
                       ++ prefix ++ lit "/"))
    /\ license item =
         (if truthy (get_opt it "license") then get_opt it "license"
          else VStr (lit "CC-BY-4.0"))
    /\ course_code item =
         (if nullish (get_opt it "course_code") then VNull
          else get_opt it "course_code")
    /\ summary item =
         (if nullish (get_opt it "summary") then VNull else get_opt it "summary")
    /\ (truthy (VStr []) = false /\ truthy (VNum 0%float) = false
        /\ truthy (VBool false) = false /\ truthy VNull = false
        /\ truthy VUndefined = false)
    /\ (nullish (VStr []) = false /\ nullish VNull = true
        /\ nullish VUndefined = true).
Proof.
  intros it Hname Hprefix Hcase.
  pose proof (normalizeItem_object cfg props repo name prefix Hname Hprefix)
    as Heq. cbv zeta in Heq. subst it. rewrite Heq.
  unfold synthesized_id. rewrite Hname. cbn [bind]. rewrite Hprefix.
  cbn [get get_opt bind] in *. unfold or_try.
  destruct (truthy (lookup (lit "id") props)) eqn:Hid; cbn [bind].
  - eexists. split; [reflexivity|]. cbn. repeat split; reflexivity.
  - destruct Hcase as [Hcase|Hcase]; [discriminate|].
    destruct (call_toLowerCase_title _ Hcase) as [lowered Hlow].
    rewrite Hlow. cbn [bind].
    eexists. split; [reflexivity|]. cbn. repeat split; reflexivity.
Qed.

Lemma normalizeItem_defaulting_witness :
  let props := [(lit "id", VNum 0%float); (lit "title", VStr []);
                (lit "page_url", VBool false); (lit "site_url", VNull);
                (lit "license", VStr []); (lit "course_code", VStr []);
                (lit "summary", VStr [])] in
  exists item,
    normalizeItem (host := test_host) acme (VObj props) demo = Ok item
    /\ id item = VStr (lit "demo-item")
    /\ title item = VStr (lit "demo")
    /\ page_url item = VStr (lit "https://acme.github.io/demo/")
    /\ license item = VStr (lit "CC-BY-4.0")
    /\ course_code item = VStr []
    /\ summary item = VStr [].
Proof.
  intros props.
  destruct (normalizeItem_defaulting test_host acme props demo
              (VStr (lit "demo")) (lit "demo") eq_refl eq_refl
              (or_intror (or_introl eq_refl)))
    as [item [Hrun [Hid [Htitle [Hpage [Hlic [Hcode [Hsum _]]]]]]]].
  exists item. split; [exact Hrun|].
  cbn in Hid. injection Hid as Hid.
  repeat split; assumption.
Defined.

(** ** Sorting *)

Lemma sgn_flip (p q : Z) :
  Z.sgn p = (- Z.sgn q)%Z ->
  ((p < 0 <-> 0 < q) /\ (p = 0 <-> q = 0) /\ (0 < p <-> q < 0))%Z.
Proof. destruct p, q; simpl; intros H; try discriminate; repeat split; lia. Qed.

Section Comparator.

Variable A : Type.
Variable cmp : A -> A -> Z.
Hypothesis cmp_consistent : consistent cmp.

Lemma cmp_flip (a b : A) :
  ((cmp a b < 0 <-> 0 < cmp b a) /\ (cmp a b = 0 <-> cmp b a = 0)
   /\ (0 < cmp a b <-> cmp b a < 0))%Z.
Proof. apply sgn_flip, cmp_consistent. Qed.

Lemma cmp_trans (a b c : A) :
  (cmp a b <= 0 -> cmp b c <= 0 -> cmp a c <= 0)%Z.
Proof. apply cmp_consistent. Qed.

Lemma cmp_eq_trans (a b c : A) : cmp a b = 0%Z -> cmp b c = 0%Z -> cmp a c = 0%Z.
Proof.
  intros Hab Hbc.
  assert (cmp a c <= 0)%Z by (apply (cmp_trans a b c); lia).
  assert (cmp c a <= 0)%Z.
  { apply (cmp_trans c b a);
      [destruct (cmp_flip b c) | destruct (cmp_flip a b)]; lia. }
  destruct (cmp_flip a c). lia.
Qed.

Lemma cmp_lt_le (a b c : A) : (cmp a b < 0 -> cmp b c <= 0 -> cmp a c < 0)%Z.
Proof.
  intros Hab Hbc.
  assert (Hac : (cmp a c <= 0)%Z) by (apply (cmp_trans a b c); lia).
  destruct (Z.eq_dec (cmp a c) 0) as [E|]; [|lia].
  assert (cmp c a <= 0)%Z by (destruct (cmp_flip a c); lia).
  assert (cmp b a <= 0)%Z by (apply (cmp_trans b c a); lia).
  destruct (cmp_flip a b). lia.
Qed.

Lemma cmp_le_lt (a b c : A) : (cmp a b <= 0 -> cmp b c < 0 -> cmp a c < 0)%Z.
Proof.
  intros Hab Hbc.
  assert (Hac : (cmp a c <= 0)%Z) by (apply (cmp_trans a b c); lia).
  destruct (Z.eq_dec (cmp a c) 0) as [E|]; [|lia].
  assert (cmp c a <= 0)%Z by (destruct (cmp_flip a c); lia).
  assert (cmp c b <= 0)%Z by (apply (cmp_trans c a b); lia).
  destruct (cmp_flip b c). lia.
Qed.

End Comparator.

Section Sorting.

Context {host : Host}.
Hypothesis locale_consistent : consistent localeCompare.

Lemma catalog_le_trans (x y z : CatalogItem) :
  catalog_le x y -> catalog_le y z -> catalog_le x z.
Proof.
  unfold catalog_le. intros [Hxy | [Hxy Txy]] [Hyz | [Hyz Tyz]].
  - left. apply (cmp_lt_le _ _ locale_consistent _ (code_key y)); lia.
  - left. apply (cmp_lt_le _ _ locale_consistent _ (code_key y)); lia.
  - left. apply (cmp_le_lt _ _ locale_consistent _ (code_key y)); lia.
  - right. split.
    + now apply (cmp_eq_trans _ _ locale_consistent _ (code_key y)).
    + now apply (cmp_trans _ _ locale_consistent _ (title_key y)).
Qed.

(** The comparison function on items of the data model. *)
Lemma compare_items_sortable (x y : CatalogItem) :
  sortable x = true -> sortable y = true ->
  compare_items x y =
    Ok (if (localeCompare (code_key x) (code_key y) =? 0)%Z
        then localeCompare (title_key x) (title_key y)
        else localeCompare (code_key x) (code_key y)).
Proof.
  unfold sortable, compare_items, code_key, title_key.
  intros Hx Hy.
  apply andb_true_iff in Hx as [Hcx Htx]. apply andb_true_iff in Hy as [Hcy Hty].
  assert (Hkey : forall v, is_string v || negb (truthy v) = true ->
                           or_else v (VStr []) = VStr (string_of v)).
  { intros v Hv. unfold or_else.
    destruct v as [| |b|f|s|elems|props]; try reflexivity;
      try discriminate; cbn [is_string orb] in Hv;
      try (apply negb_true_iff in Hv; now rewrite Hv).
    destruct s; reflexivity. }
  rewrite (Hkey _ Hcx), (Hkey _ Hcy).
  destruct (title x); try discriminate. destruct (title y); try discriminate.
  cbn [call_localeCompare ToString bind string_of].
  destruct (_ =? 0)%Z; reflexivity.
Qed.

Lemma order_sortable (x y : CatalogItem) :
  sortable x = true -> sortable y = true ->
  order x y = (if (localeCompare (code_key x) (code_key y) =? 0)%Z
               then localeCompare (title_key x) (title_key y)
               else localeCompare (code_key x) (code_key y)).
Proof.
  intros Hx Hy. unfold order. now rewrite (compare_items_sortable x y Hx Hy).
Qed.

(** The later item precedes the earlier one. *)
Lemma order_lt (x y : CatalogItem) :
  sortable x = true -> sortable y = true ->
  (order y x < 0)%Z -> catalog_le y x /\ tied x y = false.
Proof.
  intros Hx Hy. rewrite (order_sortable y x Hy Hx). unfold catalog_le, tied.
  pose proof (cmp_flip _ _ locale_consistent (code_key x) (code_key y)).
  pose proof (cmp_flip _ _ locale_consistent (title_key x) (title_key y)).
  destruct (Z.eqb_spec (localeCompare (code_key y) (code_key x)) 0);
    destruct (Z.eqb_spec (localeCompare (code_key x) (code_key y)) 0);
    destruct (Z.eqb_spec (localeCompare (title_key x) (title_key y)) 0);
    cbn [andb]; intros Hc; split; try reflexivity; lia.
Qed.

(** The later item does not precede the earlier one. *)
Lemma order_ge (x y : CatalogItem) :
  sortable x = true -> sortable y = true ->
  (0 <= order y x)%Z -> catalog_le x y.
Proof.
  intros Hx Hy. rewrite (order_sortable y x Hy Hx). unfold catalog_le.
  pose proof (cmp_flip _ _ locale_consistent (code_key x) (code_key y)).
  pose proof (cmp_flip _ _ locale_consistent (title_key x) (title_key y)).
  destruct (Z.eqb_spec (localeCompare (code_key y) (code_key x)) 0); lia.
Qed.

Lemma tied_both (z x y : CatalogItem) :
  tied z x = true -> tied z y = true -> tied x y = true.
Proof.
  unfold tied. rewrite !andb_true_iff, !Z.eqb_eq.
  intros [Hc1 Ht1] [Hc2 Ht2].
  pose proof (cmp_flip _ _ locale_consistent (code_key z) (code_key x)).
  pose proof (cmp_flip _ _ locale_consistent (title_key z) (title_key x)).
  split.
  - apply (cmp_eq_trans _ _ locale_consistent _ (code_key z)); lia.
  - apply (cmp_eq_trans _ _ locale_consistent _ (title_key z)); lia.
Qed.

Lemma insert_item_sorted (x : CatalogItem) (behind : list CatalogItem) :
  sortable x = true -> forallb sortable behind = true ->
  StronglySorted catalog_le behind ->
  Permutation (x :: behind) (insert_item x behind)
  /\ StronglySorted catalog_le (insert_item x behind)
  /\ (forall z, filter (tied z) (insert_item x behind)
                = filter (tied z) (x :: behind)).
Proof.
  intros Hx. induction behind as [|y rest IH]; intros Hs Hsorted.
  - repeat split; auto. repeat constructor.
  - cbn [forallb] in Hs. apply andb_true_iff in Hs as [Hy Hrest].
    cbn [insert_item]. destruct (Z.ltb_spec (order y x) 0) as [Hlt | Hge].
    + destruct (order_lt x y Hx Hy Hlt) as [Hyx Hnot].
      apply StronglySorted_inv in Hsorted as [Hsorted Hall].
      destruct (IH Hrest Hsorted) as [Hperm [Hsorted' Hstable]].
      repeat split.
      * eapply perm_trans; [apply perm_swap | now apply perm_skip].
      * constructor; [assumption|].
        eapply Permutation_Forall; [exact Hperm|]. now constructor.
      * intros z. cbn [filter]. rewrite Hstable. cbn [filter].
        destruct (tied z x) eqn:Hzx; destruct (tied z y) eqn:Hzy; try reflexivity.
        rewrite (tied_both z x y Hzx Hzy) in Hnot. discriminate.
    + repeat split; auto.
      constructor; [assumption|].
      apply (order_ge x y Hx Hy) in Hge.
      constructor; [assumption|].
      apply StronglySorted_inv in Hsorted as [_ Hall].
      eapply Forall_impl; [|exact Hall].
      intros z Hz. now apply (catalog_le_trans x y z).
Qed.

Lemma stable_sort_sorted (l : list CatalogItem) :
  forallb sortable l = true ->
  Permutation l (stable_sort l)
  /\ StronglySorted catalog_le (stable_sort l)
  /\ (forall z, filter (tied z) (stable_sort l) = filter (tied z) l).
Proof.
  induction l as [|x rest IH]; intros Hl.
  - repeat split; auto. constructor.
  - cbn [forallb] in Hl. apply andb_true_iff in Hl as [Hx Hrest].
    destruct (IH Hrest) as [Hperm [Hsorted Hstable]].
    assert (Hs : forallb sortable (stable_sort rest) = true).
    { rewrite forallb_forall in *. intros z Hz. apply Hrest.
      eapply Permutation_in; [apply Permutation_sym; exact Hperm | exact Hz]. }
    destruct (insert_item_sorted x (stable_sort rest) Hx Hs Hsorted)
      as [Hperm' [Hsorted' Hstable']].
    cbn [stable_sort]. repeat split; auto.
    + eapply perm_trans; [apply perm_skip; exact Hperm | exact Hperm'].
    + intros z. rewrite Hstable'. cbn [filter]. now rewrite Hstable.
Qed.

(** On items on which the comparison function cannot throw, the sort is
    the stable sorted order, whatever the engine. *)
Lemma sort_items_sortable (l : list CatalogItem) :
  forallb sortable l = true -> sort_items l = Ok (stable_sort l).
Proof. intros Hl. unfold sort_items. now rewrite Hl, orb_true_r. Qed.

Lemma sort_items_sorted (l : list CatalogItem) :
  forallb sortable l = true ->
  exists sorted,
    sort_items l = Ok sorted
    /\ Permutation l sorted
    /\ StronglySorted catalog_le sorted
    /\ (forall z, filter (tied z) sorted = filter (tied z) l).
Proof.
  intros Hl. exists (stable_sort l).
  split; [now apply sort_items_sortable | now apply stable_sort_sorted].
Qed.

End Sorting.

(** The order of code units is a consistent comparison. *)
Lemma compare_units_sgn (a b : jsstring) :
  Z.sgn (compare_units a b) = compare_units a b.
Proof.
  revert b. induction a as [|x a IH]; destruct b as [|y b]; simpl; try reflexivity.
  destruct (N.compare x y); auto.
Qed.

Lemma compare_units_flip (a b : jsstring) :
  compare_units a b = (- compare_units b a)%Z.
Proof.
  revert b. induction a as [|x a IH]; destruct b as [|y b]; simpl; try reflexivity.
  rewrite (N.compare_antisym x y).
  destruct (N.compare x y); simpl; auto.
Qed.

Lemma compare_units_range (a b : jsstring) :
  (-1 <= compare_units a b <= 1)%Z.
Proof.
  revert b. induction a as [|x a IH]; destruct b as [|y b]; simpl; try lia.
  destruct (N.compare x y); auto; lia.
Qed.

Lemma compare_units_trans (a b c : jsstring) :
  (compare_units a b <= 0 -> compare_units b c <= 0 -> compare_units a c <= 0)%Z.
Proof.
  revert b c. induction a as [|x a IH]; intros [|y b] [|z c]; simpl; try lia.
  destruct (N.compare_spec x y) as [->|Hxy|Hxy]; try lia.
  - destruct (N.compare_spec y z) as [->|Hyz|Hyz]; try lia. apply IH.
  - destruct (N.compare_spec y z) as [->|Hyz|Hyz]; try lia.
    + intros _ _. destruct (N.compare_spec x z); lia.
    + intros _ _. destruct (N.compare_spec x z); lia.
Qed.

Lemma test_host_consistent : consistent (@localeCompare test_host).
Proof.
  split.
  - intros a b. cbn [localeCompare test_host].
    rewrite !compare_units_sgn. apply compare_units_flip.
  - intros a b c. apply compare_units_trans.
Qed.

Lemma test_host_orders_example_codes : orders_example_codes test_host.
Proof. intros a b _ _. apply compare_units_sgn. Qed.

Section Example.

Context {host : Host}.
Hypothesis locale_example : orders_example_codes host.

Lemma order_example (x y : CatalogItem) :
  sortable x = true -> sortable y = true ->
  In (code_key x) example_codes -> In (code_key y) example_codes ->
  compare_units (code_key y) (code_key x) <> 0%Z ->
  (order y x <? 0)%Z = (compare_units (code_key y) (code_key x) <? 0)%Z.
Proof.
  intros Hx Hy Hinx Hiny Hne.
  unfold order. rewrite (compare_items_sortable y x Hy Hx).
  pose proof (locale_example _ _ Hiny Hinx) as Hs.
  pose proof (compare_units_range (code_key y) (code_key x)) as Hr.
  set (u := compare_units (code_key y) (code_key x)) in *.
  set (c := localeCompare (code_key y) (code_key x)) in *.
  assert (Hc : c <> 0%Z) by (intros E; rewrite E in Hs; simpl in Hs; lia).
  destruct (Z.eqb_spec c 0) as [|_]; [contradiction|].
  destruct (Z.ltb_spec c 0), (Z.ltb_spec u 0); try reflexivity;
    destruct c; simpl in Hs; lia.
Qed.

End Example.

(** One comparison of the example: the code units of the two codes decide
    which branch of [insert_item] is taken. *)
Ltac compare_step H x y Sx Sy Ix Iy Kx Ky :=
  let E := fresh "E" in
  let r := fresh "r" in
  pose proof (H x y Sx Sy Ix Iy) as E;
  rewrite Kx, Ky in E;
  specialize (E ltac:(discriminate));
  set (r := (compare_units _ _ <? 0)%Z) in E; vm_compute in r; subst r;
  rewrite E; cbn [insert_item].

(** C1, as amended.  On items whose course code is a string or [null] and
    whose title is a string, and with a consistent [localeCompare], the
    sort returns the items in the order given by course code ([null] as the
    empty string) and then title, and keeps tied items in their order.  For
    the course codes [B101], [null], [A200], [A100] the item with the
    [null] code comes first, then [A100], [A200], [B101]. *)
Theorem sort_items_order (host : Host) :
  consistent localeCompare ->
  orders_example_codes host ->
  (forall l, forallb sortable l = true ->
     exists sorted,
       sort_items l = Ok sorted
       /\ Permutation l sorted
       /\ StronglySorted catalog_le sorted
       /\ (forall z, filter (tied z) sorted = filter (tied z) l))
  /\ (forall a b c d,
        course_code a = VStr (lit "B101") -> title a = VStr (lit "x") ->
        course_code b = VNull -> title b = VStr (lit "y") ->
        course_code c = VStr (lit "A200") -> title c = VStr (lit "z") ->
        course_code d = VStr (lit "A100") -> title d = VStr (lit "w") ->
        sort_items [a; b; c; d] = Ok [b; d; c; a]).
Proof.
  intros Hcons Hex. split; [apply sort_items_sorted; exact Hcons|].
  intros a b c d Ca Ta Cb Tb Cc Tc Cd Td.
  assert (Sa : sortable a = true) by (unfold sortable; now rewrite Ca, Ta).
  assert (Sb : sortable b = true) by (unfold sortable; now rewrite Cb, Tb).
  assert (Sc : sortable c = true) by (unfold sortable; now rewrite Cc, Tc).
  assert (Sd : sortable d = true) by (unfold sortable; now rewrite Cd, Td).
  assert (Ka : code_key a = lit "B101") by (unfold code_key; now rewrite Ca).
  assert (Kb : code_key b = []) by (unfold code_key; now rewrite Cb).
  assert (Kc : code_key c = lit "A200") by (unfold code_key; now rewrite Cc).
  assert (Kd : code_key d = lit "A100") by (unfold code_key; now rewrite Cd).
  assert (Hcmp : forall x y, sortable x = true -> sortable y = true ->
            In (code_key x) example_codes -> In (code_key y) example_codes ->
            compare_units (code_key y) (code_key x) <> 0%Z ->
            (order y x <? 0)%Z = (compare_units (code_key y) (code_key x) <? 0)%Z)
    by (apply order_example; exact Hex).
  assert (Ia : In (code_key a) example_codes) by (rewrite Ka; simpl; tauto).
  assert (Ib : In (code_key b) example_codes) by (rewrite Kb; simpl; tauto).
  assert (Ic : In (code_key c) example_codes) by (rewrite Kc; simpl; tauto).
  assert (Id : In (code_key d) example_codes) by (rewrite Kd; simpl; tauto).
  rewrite sort_items_sortable
    by (cbn [forallb]; now rewrite Sa, Sb, Sc, Sd).
  cbn [stable_sort insert_item].
  compare_step Hcmp c d Sc Sd Ic Id Kc Kd.
  compare_step Hcmp b d Sb Sd Ib Id Kb Kd.
  compare_step Hcmp a b Sa Sb Ia Ib Ka Kb.
  compare_step Hcmp a d Sa Sd Ia Id Ka Kd.
  compare_step Hcmp a c Sa Sc Ia Ic Ka Kc.
  reflexivity.
Qed.

Lemma sort_items_order_witness :
  consistent (@localeCompare test_host)
  /\ orders_example_codes test_host
  /\ sort_items (host := test_host) four_items =
       Ok [entry VNull "y"; entry (VStr (lit "A100")) "w";
           entry (VStr (lit "A200")) "z"; entry (VStr (lit "B101")) "x"].
Proof.
  split; [exact test_host_consistent|].
  split; [exact test_host_orders_example_codes|].
  apply (sort_items_order test_host test_host_consistent
           test_host_orders_example_codes); reflexivity.
Defined.

(** C1 as stated fails: the item with the [null] course code is sorted
    first, not last. *)
Lemma four_items_null_first :
  let codes := sorted <- sort_items (host := test_host) four_items ;;
               Ok (map course_code sorted) in
  codes = Ok [VNull; VStr (lit "A100"); VStr (lit "A200"); VStr (lit "B101")]
  /\ codes <> Ok [VStr (lit "A100"); VStr (lit "A200"); VStr (lit "B101"); VNull].
Proof. vm_compute. split; [reflexivity | discriminate]. Qed.

(** ** The repository lister *)

Lemma io_bind_Ok {A B} (m : IO A) (k : A -> IO B) log b log' :
  io_bind m k log = (Ok b, log') ->
  exists a log1, m log = (Ok a, log1) /\ k a log1 = (Ok b, log').
Proof.
  unfold io_bind. destruct (m log) as [[a|e] log1]; [eauto | discriminate].
Qed.

Lemma bind_Ok {A B} (r : result A) (k : A -> result B) b :
  bind r k = Ok b -> exists a, r = Ok a /\ k a = Ok b.
Proof. destruct r; simpl; [eauto | discriminate]. Qed.

Section Lister.

Context {host : Host}.
Variable cfg : Config.
Variable env : Environment.
Variable org_name : jsstring.
Variable log0 : list request.

Local Abbreviation pages := (pages_log cfg org_name).
Local Abbreviation answer := (page_answer cfg env org_name log0).
Local Abbreviation served := (serves_page cfg env org_name log0).
Local Abbreviation loop := (list_pages cfg env).

Lemma gh_page_served (k : nat) (batch : list value) :
  served k batch ->
  gh cfg env (repos_path org_name (N.of_nat (S k))) (pages k ++ log0)
  = (Ok (VArr batch), pages (S k) ++ log0).
Proof.
  intros [r [Hans [Hok Hjson]]].
  unfold gh, io_bind, fetch.
  unfold page_answer, page_request in Hans. rewrite Hans.
  rewrite Hok. cbn [negb]. unfold json. rewrite Hjson. reflexivity.
Qed.

(** The loop passes over full pages. *)
Lemma list_pages_full (batches : list (list value)) :
  forall (j : nat) (acc : list value) (fuel : nat),
    (forall k, k < length batches ->
               served (j + k) (nth k batches [])
               /\ (per_page <= N.of_nat (length (nth k batches [])))%N) ->
    loop (length batches + fuel) org_name (N.of_nat (S j)) acc
      (pages j ++ log0)
    = loop fuel org_name (N.of_nat (S (j + length batches)))
        (acc ++ concat batches) (pages (j + length batches) ++ log0).
Proof.
  induction batches as [|b rest IH]; intros j acc fuel Hserved.
  - cbn [length concat plus]. now rewrite Nat.add_0_r, app_nil_r.
  - destruct (Hserved 0 (Nat.lt_0_succ _)) as [Hb Hfull].
    rewrite Nat.add_0_r in Hb. cbn [nth] in Hb, Hfull.
    cbn [length plus list_pages].
    rewrite (gh_page_served j b Hb). cbn [iterate length_of].
    destruct (N.ltb_spec (N.of_nat (length b)) per_page) as [Hlt|_]; [lia|].
    replace (N.of_nat (S j) + 1)%N with (N.of_nat (S (S j))) by lia.
    rewrite (IH (S j) (acc ++ b) fuel).
    + cbn [concat]. rewrite <- app_assoc.
      now replace (S j + length rest) with (j + S (length rest)) by lia.
    + intros k Hk. specialize (Hserved (S k) (proj1 (Nat.succ_lt_mono _ _) Hk)).
      cbn [nth] in Hserved.
      now replace (S j + k) with (j + S k) by lia.
Qed.

(** One turn of the loop: it stops on an answer that is not a full page
    and goes on to the next page on a full one. *)
Lemma list_pages_turn (j fuel : nat) (acc : list value) :
  if full_page (answer j)
  then exists acc',
      loop (S fuel) org_name (N.of_nat (S j)) acc (pages j ++ log0)
      = loop fuel org_name (N.of_nat (S (S j))) acc'
          (pages (S j) ++ log0)
  else exists out,
      loop (S fuel) org_name (N.of_nat (S j)) acc (pages j ++ log0)
      = Some (out, pages (S j) ++ log0).
Proof.
  cbn [list_pages].
  unfold gh, io_bind, fetch, page_answer, page_request, full_page.
  destruct (world env (pages j ++ log0) _) as [|r];
    [eexists; reflexivity|].
  destruct (ok r); cbn [negb andb].
  - unfold json. destruct (body_json r) as [v|]; [|eexists; reflexivity].
    cbn [io_ret].
    replace (N.of_nat (S j) + 1)%N with (N.of_nat (S (S j))) by lia.
    destruct v; cbn [iterate length_of]; try (eexists; reflexivity);
      destruct (_ <? per_page)%N; cbn [negb]; eexists; reflexivity.
  - unfold try_catch, text. destruct (body_text r); eexists; reflexivity.
Qed.

Lemma list_pages_stops (n : nat) :
  forall (j fuel : nat) (acc : list value),
    full_page (answer (j + n)) = false -> n < fuel ->
    exists out, loop fuel org_name (N.of_nat (S j)) acc
                  (pages j ++ log0) = Some out.
Proof.
  induction n as [|n IH]; intros j fuel acc Hstop Hfuel;
    (destruct fuel as [|fuel]; [lia|]);
    pose proof (list_pages_turn j fuel acc) as Hturn.
  - rewrite Nat.add_0_r in Hstop. rewrite Hstop in Hturn.
    destruct Hturn as [out ->]. eauto.
  - destruct (full_page (answer j)).
    + destruct Hturn as [acc' ->]. apply IH; [|lia].
      now replace (S j + n) with (j + S n) by lia.
    + destruct Hturn as [out ->]. eauto.
Qed.

End Lister.

(** C4.  The lister asks for pages of 100 entries from page 1 on, goes to
    the next page while the page returned is full, and stops at the first
    short page, returning the entries of all pages in order: when the API
    serves full pages and then a short one, the lister makes one request
    per page, and no more, and returns their concatenation.  With one full
    page and a short second page that is two requests.  The loop ends as
    soon as an answer is not a full page. *)
Theorem listAllOrgRepos_pages (host : Host) (cfg : Config) (env : Environment)
    (org_name : jsstring) (log0 : list request) :
  (forall (batches : list (list value)) (short : list value) (fuel : nat),
      serves_full_pages cfg env org_name log0 batches ->
      serves_page cfg env org_name log0 (length batches) short ->
      (N.of_nat (length short) < per_page)%N ->
      length batches < fuel ->
      listAllOrgRepos cfg env fuel org_name log0
      = Some (Ok (concat batches ++ short),
              pages_log cfg org_name (S (length batches)) ++ log0))
  /\ (forall (first second : list value) (fuel : nat),
        serves_page cfg env org_name log0 0 first ->
        N.of_nat (length first) = per_page ->
        serves_page cfg env org_name log0 1 second ->
        (N.of_nat (length second) < per_page)%N ->
        1 < fuel ->
        listAllOrgRepos cfg env fuel org_name log0
        = Some (Ok (first ++ second),
                page_request cfg org_name 2 :: page_request cfg org_name 1 :: log0))
  /\ (forall (n fuel : nat),
        full_page (page_answer cfg env org_name log0 n) = false ->
        n < fuel ->
        exists out, listAllOrgRepos cfg env fuel org_name log0 = Some out)
  /\ (forall page,
        page_request cfg org_name page
        = ApiGet (lit "https://api.github.com/orgs/" ++ org_name
                    ++ lit "/repos?per_page=100&page=" ++ dec page
                    ++ lit "&type=public&sort=full_name")
                 (lit "Bearer " ++ env_string (token cfg))).
Proof.
  assert (Hpages : forall (batches : list (list value)) (short : list value) (fuel : nat),
      serves_full_pages cfg env org_name log0 batches ->
      serves_page cfg env org_name log0 (length batches) short ->
      (N.of_nat (length short) < per_page)%N ->
      length batches < fuel ->
      listAllOrgRepos cfg env fuel org_name log0
      = Some (Ok (concat batches ++ short),
              pages_log cfg org_name (S (length batches)) ++ log0)).
  { intros batches short fuel Hfull Hshort Hlen Hfuel.
    unfold listAllOrgRepos.
    replace fuel with (length batches + S (fuel - S (length batches)))
      by lia.
    change 1%N with (N.of_nat 1).
    rewrite (list_pages_full cfg env org_name log0 batches 0 [] _ Hfull).
    cbn [plus app list_pages].
    rewrite (gh_page_served cfg env org_name log0 _ short Hshort).
    cbn [iterate length_of].
    destruct (N.ltb_spec (N.of_nat (length short)) per_page); [reflexivity | lia]. }
  split; [exact Hpages | split].
  - intros first second fuel H1 Hlen1 H2 Hlen2 Hfuel.
    rewrite (Hpages [first] second fuel); try assumption.
    + cbn [concat length pages_log app]. now rewrite app_nil_r.
    + intros k Hk. cbn [length] in Hk.
      assert (k = 0) as -> by lia. cbn [nth]. split; [assumption | lia].
  - split; [|reflexivity].
    intros n fuel Hstop Hfuel. unfold listAllOrgRepos.
    change 1%N with (N.of_nat 1).
    apply (list_pages_stops cfg env org_name log0 n 0 fuel []); assumption.
Qed.

Lemma listAllOrgRepos_pages_witness :
  listAllOrgRepos acme (environment two_pages) 2 (lit "acme") []
  = Some (Ok (full_batch ++ short_batch),
          [page_request acme (lit "acme") 2; page_request acme (lit "acme") 1]).
Proof.
  apply (listAllOrgRepos_pages test_host acme (environment two_pages)
           (lit "acme") []).
  - eexists. repeat split; vm_compute; reflexivity.
  - reflexivity.
  - eexists. repeat split; vm_compute; reflexivity.
  - reflexivity.
  - lia.
Defined.

(** ** The per-repository probe *)

Section Probe.

Context {host : Host}.
Variable env : Environment.

Lemma fetchIfExists_fetched (url : jsstring) (log : list request) :
  fetchIfExists env url log = (Ok (fetched env log url), SiteGet url :: log).
Proof.
  unfold fetchIfExists, try_catch, io_bind, fetch, fetched.
  destruct (world env log (SiteGet url)) as [|r]; [reflexivity|].
  destruct (ok r); cbn [negb]; [|reflexivity].
  unfold json. destruct (body_json r); reflexivity.
Qed.

Lemma none_with_items_cons (u : jsstring) (rest : list jsstring)
    (log : list request) :
  none_with_items env log (u :: rest) ->
  has_items (fetched env log u) = false
  /\ none_with_items env (SiteGet u :: log) rest.
Proof.
  intros Hnone. split.
  - apply (Hnone [] u rest). reflexivity.
  - intros pre c post ->.
    specialize (Hnone (u :: pre) c post eq_refl).
    unfold tried in *. cbn [map rev] in Hnone.
    now rewrite <- app_assoc in Hnone.
Qed.

Lemma probe_none (urls : list jsstring) :
  forall (data : value) (log : list request),
    none_with_items env log urls ->
    exists last,
      probe env urls data log = (Ok last, tried urls log)
      /\ (has_items data = false -> has_items last = false).
Proof.
  induction urls as [|u rest IH]; intros data log Hnone.
  - exists data. split; [reflexivity | auto].
  - apply none_with_items_cons in Hnone as [Hu Hrest].
    cbn [probe]. unfold io_bind. rewrite fetchIfExists_fetched, Hu.
    destruct (IH (fetched env log u) _ Hrest) as [last [-> Hlast]].
    exists last. split; [|auto].
    unfold tried. cbn [map rev]. now rewrite <- app_assoc.
Qed.

Lemma probe_first (before : list jsstring) :
  forall (u : jsstring) (after : list jsstring) (data : value)
         (log : list request),
    none_with_items env log before ->
    has_items (fetched env (tried before log) u) = true ->
    probe env (before ++ u :: after) data log
    = (Ok (fetched env (tried before log) u), SiteGet u :: tried before log).
Proof.
  induction before as [|c rest IH]; intros u after data log Hnone Hu.
  - cbn [app probe]. unfold io_bind. rewrite fetchIfExists_fetched.
    unfold tried in Hu. cbn in Hu. now rewrite Hu.
  - apply none_with_items_cons in Hnone as [Hc Hrest].
    cbn [app probe]. unfold io_bind. rewrite fetchIfExists_fetched, Hc.
    unfold tried in *. cbn [map rev] in *. rewrite <- app_assoc in *.
    now apply IH.
Qed.

Lemma probe_returns (urls : list jsstring) :
  forall (data : value) (log : list request),
    exists last log', probe env urls data log = (Ok last, log').
Proof.
  induction urls as [|u rest IH]; intros data log; cbn [probe].
  - eexists _, _. reflexivity.
  - unfold io_bind. rewrite fetchIfExists_fetched.
    destruct (has_items (fetched env log u)); [eexists _, _; reflexivity|].
    apply IH.
Qed.

Lemma has_items_cases (data : value) :
  has_items data = true <->
  exists props,
    data = VObj props
    /\ match lookup (lit "items") props with
       | VArr elems => elems <> []
       | VStr s => s <> []
       | VObj inner => truthy (lookup (lit "length") inner) = true
       | _ => False
       end.
Proof.
  unfold has_items, truthy_length. split.
  - destruct data; cbn [get_opt]; try discriminate.
    intros H. exists props. split; [reflexivity|].
    destruct (lookup (lit "items") props) as [| | | |[|]|[|]|]; congruence.
  - intros [props [-> H]]. cbn [get_opt].
    destruct (lookup (lit "items") props) as [| | | |[|]|[|]|];
      try contradiction; congruence.
Qed.

End Probe.

(** C5, as amended.  The fetch of a candidate never throws: a rejection, a
    status outside 200-299 or a body that does not parse gives [null].  The
    probe never throws; it returns the document of the first candidate
    whose [items] has a truthy [length], which is a non-empty array, a
    non-empty string or an object with a truthy [length] property, and
    fetches no candidate after it.  When no candidate has such a document
    the repository adds no item. *)
Theorem probe_first_with_items (host : Host) (env : Environment) :
  (forall url log,
      fetchIfExists env url log = (Ok (fetched env log url), SiteGet url :: log))
  /\ (forall urls data log,
        exists last log', probe env urls data log = (Ok last, log'))
  /\ (forall before u after data log,
        none_with_items env log before ->
        has_items (fetched env (tried before log) u) = true ->
        probe env (before ++ u :: after) data log
        = (Ok (fetched env (tried before log) u), SiteGet u :: tried before log))
  /\ (forall urls log,
        none_with_items env log urls ->
        exists last,
          probe env urls VNull log = (Ok last, tried urls log)
          /\ has_items last = false)
  /\ (forall cfg repo base found log,
        site_base cfg repo = Ok base ->
        none_with_items env log (candidates base) ->
        exists log', process_repo cfg env repo found log = (Ok found, log'))
  /\ (forall data,
        has_items data = true <->
        exists props,
          data = VObj props
          /\ match lookup (lit "items") props with
             | VArr elems => elems <> []
             | VStr s => s <> []
             | VObj inner => truthy (lookup (lit "length") inner) = true
             | _ => False
             end).
Proof.
  split; [apply fetchIfExists_fetched|].
  split; [apply probe_returns|].
  split; [intros; now apply probe_first|].
  split; [|split; [|apply has_items_cases]].
  - intros urls log Hnone.
    destruct (probe_none env urls VNull log Hnone) as [last [Hrun Hlast]].
    exists last. split; [exact Hrun | now apply Hlast].
  - intros cfg repo base found log Hbase Hnone.
    destruct (probe_none env _ VNull log Hnone) as [last [Hrun Hlast]].
    unfold process_repo, io_bind, lift. rewrite Hbase, Hrun, (Hlast eq_refl).
    unfold try_catch.
    destruct (fallback cfg env repo _) as [[[]|e] log']; eexists; reflexivity.
Qed.

Lemma probe_first_with_items_witness :
  let root := lit "https://acme.github.io/lab1/oer-assignments.json" in
  let docs := lit "https://acme.github.io/lab1/docs/oer-assignments.json" in
  probe (environment two_labs) [root; docs] VNull []
  = (Ok intro_document, [SiteGet docs; SiteGet root]).
Proof.
  intros root docs.
  destruct (probe_first_with_items test_host (environment two_labs))
    as [_ [_ [Hfirst _]]].
  apply (Hfirst [root] docs [] VNull []).
  - intros [|c [|d pre]] u post E; try discriminate E.
    injection E as <- _. reflexivity.
  - reflexivity.
Defined.

(** C5 as stated fails: no candidate of the site has a non-empty [items]
    array, and yet the repository adds two items, one for each character of
    the string that the first document has for [items]. *)
Lemma string_items_contribute :
  let env := environment string_items in
  forallb (fun u => negb (has_items_array (fetched env [] u)))
    (candidates (lit "https://acme.github.io/demo/")) = true
  /\ exists a b log,
      process_repo (host := test_host) acme env demo [] [] = (Ok [a; b], log).
Proof.
  split; [vm_compute; reflexivity|].
  eexists _, _, _. vm_compute. reflexivity.
Qed.

(** ** The run *)

(** The insertion engine returns the elements that it was given. *)
Lemma binary_insertion_perm {A : Type} (comparefn : A -> A -> result Z)
    (pending : list A) :
  forall sorted result,
    binary_insertion comparefn sorted pending = Ok result ->
    Permutation (sorted ++ pending) result.
Proof.
  induction pending as [|pivot rest IH]; intros sorted result;
    cbn [binary_insertion].
  - intros [= <-]. now rewrite app_nil_r.
  - intros H. apply bind_Ok in H as [place [_ H]].
    apply IH in H. eapply perm_trans; [|exact H].
    rewrite <- (firstn_skipn place sorted) at 1.
    rewrite <- !app_assoc. apply Permutation_app_head.
    cbn [app]. apply Permutation_sym, Permutation_middle.
Qed.

Lemma count_and_make_run_perm {A : Type} (comparefn : A -> A -> result Z)
    (elems : list A) (made : nat * list A) :
  count_and_make_run comparefn elems = Ok made ->
  Permutation elems (snd made).
Proof.
  unfold count_and_make_run.
  destruct elems as [|first [|second rest]];
    try (intros [= <-]; apply Permutation_refl).
  intros H. apply bind_Ok in H as [c [_ H]].
  apply bind_Ok in H as [n [_ [= <-]]]. cbn [snd].
  destruct (c <? 0)%Z; [|apply Permutation_refl].
  rewrite <- (firstn_skipn (S (S n)) (first :: second :: rest)) at 1.
  apply Permutation_app_tail, Permutation_rev.
Qed.

Lemma test_host_sort_permutes : sort_permutes test_host.
Proof.
  intros A comparefn elems sorted. cbn [array_sort test_host].
  unfold insertion_engine. intros H.
  apply bind_Ok in H as [made [Hmade Hsorted]].
  apply count_and_make_run_perm in Hmade.
  apply binary_insertion_perm in Hsorted.
  rewrite firstn_skipn in Hsorted.
  eapply perm_trans; [exact Hmade | exact Hsorted].
Qed.

Section RunFacts.

Context {host : Host}.
Variable cfg : Config.
Variable env : Environment.

(** A run that stores a catalog has listed, filtered, probed and sorted
    before. *)
Lemma main_written (fuel : nat) (outcome : Outcome) (catalog : Catalog) :
  main cfg env fuel = Some outcome ->
  written outcome = Some catalog ->
  exit_code outcome = 0%Z
  /\ exists listed log1 repos found,
      listAllOrgRepos cfg env fuel (env_string (org cfg)) [] = Some (Ok listed, log1)
      /\ filter_repos cfg listed = Ok repos
      /\ process_repos cfg env repos [] log1 = (Ok found, fetches outcome)
      /\ sort_items found = Ok (items catalog).
Proof.
  unfold main, build.
  destruct (negb (truthy (env_value (token cfg)))
            || negb (truthy (env_value (org cfg)))).
  { intros [= <-]. discriminate. }
  destruct (listAllOrgRepos cfg env fuel (env_string (org cfg)) [])
    as [[[listed|e] log1]|]; try discriminate.
  2: { intros [= <-]. discriminate. }
  unfold io_bind, lift, io_ret.
  destruct (filter_repos cfg listed) as [repos|e] eqn:Hfilter.
  2: { intros [= <-]. discriminate. }
  destruct (process_repos cfg env repos [] log1) as [[found|e] log2] eqn:Hproc.
  2: { intros [= <-]. discriminate. }
  destruct (sort_items found) as [sorted|e] eqn:Hsort.
  2: { intros [= <-]. discriminate. }
  destruct (mkdir_ok env).
  2: { intros [= <-]. discriminate. }
  destruct (writeFile_ok env).
  2: { intros [= <-]. discriminate. }
  intros [= <-]. cbn [written exit_code fetches]. intros [= <-].
  split; [reflexivity|]. exists listed, log1, repos, found.
  cbn [items]. auto.
Qed.

Lemma main_failure (fuel : nat) (outcome : Outcome) :
  main cfg env fuel = Some outcome ->
  exit_code outcome <> 0%Z -> written outcome = None.
Proof.
  intros Hrun Hcode. destruct (written outcome) as [catalog|] eqn:Hw; [|reflexivity].
  destruct (main_written fuel outcome catalog Hrun Hw) as [Hzero _]. contradiction.
Qed.

Lemma insert_item_perm (x : CatalogItem) (behind : list CatalogItem) :
  Permutation (x :: behind) (insert_item x behind).
Proof.
  induction behind as [|y rest IH]; cbn [insert_item].
  - apply Permutation_refl.
  - destruct (order y x <? 0)%Z; [|apply Permutation_refl].
    eapply perm_trans; [apply perm_swap | apply perm_skip, IH].
Qed.

Lemma stable_sort_perm (l : list CatalogItem) : Permutation l (stable_sort l).
Proof.
  induction l as [|x rest IH]; cbn [stable_sort]; [apply perm_nil|].
  eapply perm_trans; [apply perm_skip, IH | apply insert_item_perm].
Qed.

(** The sort returns the items that it was given: by the stable sorted
    order where ECMAScript fixes it, by the engine elsewhere. *)
Lemma sort_items_perm (l sorted : list CatalogItem) :
  sort_permutes host -> sort_items l = Ok sorted -> Permutation l sorted.
Proof.
  intros Hengine. unfold sort_items.
  destruct ((length l <? 2)%nat || forallb sortable l).
  - intros [= <-]. apply stable_sort_perm.
  - apply Hengine.
Qed.

(** The normalizer copies the name and the URL of the repository. *)
Lemma normalizeItem_repo_fields (it repo : value) (item : CatalogItem) :
  normalizeItem cfg it repo = Ok item ->
  get repo "name" = Ok (repo_name item)
  /\ get repo "html_url" = Ok (repo_url item).
Proof.
  unfold normalizeItem. intros H.
  repeat match type of H with
         | bind ?e _ = Ok _ =>
             let a := fresh "a" in
             let E := fresh "E" in
             apply bind_Ok in H as [a [E H]]
         end.
  injection H as <-. cbn [repo_name repo_url]. split; assumption.
Qed.

Lemma normalize_all_items (raws : list value) (repo : value)
    (fresh : list CatalogItem) :
  normalize_all cfg raws repo = Ok fresh ->
  forall item, In item fresh ->
               exists raw, In raw raws /\ normalizeItem cfg raw repo = Ok item.
Proof.
  revert fresh. induction raws as [|it rest IH]; intros fresh; cbn [normalize_all].
  - intros [= <-] item [].
  - intros H. apply bind_Ok in H as [first [Hfirst H]].
    apply bind_Ok in H as [more [Hmore [= <-]]].
    intros item [<- | Hin].
    + exists it. split; [now left | exact Hfirst].
    + destruct (IH more Hmore item Hin) as [raw [Hraw Hnorm]].
      exists raw. split; [now right | exact Hnorm].
Qed.

Lemma process_repo_items (repo : value) (found found' : list CatalogItem)
    (log log' : list request) :
  process_repo cfg env repo found log = (Ok found', log') ->
  exists fresh,
    found' = found ++ fresh
    /\ forall item, In item fresh ->
                    exists raw, discovered_under cfg env repo raw
                                /\ normalizeItem cfg raw repo = Ok item.
Proof.
  unfold process_repo. intros H.
  apply io_bind_Ok in H as [base [log1 [Hbase H]]].
  unfold lift in Hbase. injection Hbase as Hbase <-.
  apply io_bind_Ok in H as [data [log2 [Hprobe H]]].
  destruct (has_items data) eqn:Hitems.
  - apply io_bind_Ok in H as [raws [log3 [Hraws H]]].
    unfold lift in Hraws. injection Hraws as Hraws <-.
    apply io_bind_Ok in H as [fresh [log4 [Hfresh H]]].
    unfold lift in Hfresh. injection Hfresh as Hfresh <-.
    unfold io_ret in H. injection H as <- <-.
    exists fresh. split; [reflexivity|].
    intros item Hin.
    destruct (normalize_all_items raws repo fresh Hfresh item Hin)
      as [raw [Hraw Hnorm]].
    exists raw. split; [|exact Hnorm].
    exists base, log, data, log2, raws. auto.
  - apply io_bind_Ok in H as [u [log3 [_ H]]].
    unfold io_ret in H. injection H as <- <-.
    exists []. split; [now rewrite app_nil_r | intros item []].
Qed.

Lemma process_repos_items (repos : list value) :
  forall (found found' : list CatalogItem) (log log' : list request),
    process_repos cfg env repos found log = (Ok found', log') ->
    forall item, In item found' ->
      In item found
      \/ exists repo raw,
          In repo repos /\ discovered_under cfg env repo raw
          /\ normalizeItem cfg raw repo = Ok item.
Proof.
  induction repos as [|repo rest IH]; intros found found' log log';
    cbn [process_repos].
  - unfold io_ret. intros [= <- <-] item Hin. now left.
  - intros H. apply io_bind_Ok in H as [mid [log1 [Hrepo Hrest]]].
    destruct (process_repo_items repo found mid log log1 Hrepo)
      as [fresh [-> Hfresh]].
    intros item Hin.
    destruct (IH _ _ _ _ Hrest item Hin) as [Hmid | [r [raw [Hr [Hd Hn]]]]].
    + apply in_app_or in Hmid as [Hold | Hnew]; [now left|].
      right. destruct (Hfresh item Hnew) as [raw [Hd Hn]].
      exists repo, raw. split; [now left | auto].
    + right. exists r, raw. split; [now right | auto].
Qed.

End RunFacts.

(** C6.  When the listing API answers a page with a status outside
    200-299, the pages before it being full, the run ends with exit status
    1, the error printed carries the status and the text of the body, and
    no catalog is stored.  In every run, a catalog is stored only with exit
    status 0 and after every listed and filtered repository was processed
    and the items were sorted. *)
Theorem listing_failure_aborts (host : Host) (cfg : Config) (env : Environment)
    (secret org_name : jsstring) :
  token cfg = Some secret -> secret <> [] ->
  org cfg = Some org_name -> org_name <> [] ->
  (forall (batches : list (list value)) (r : Response) (fuel : nat),
      serves_full_pages cfg env org_name [] batches ->
      page_answer cfg env org_name [] (length batches) = Fulfilled r ->
      ok r = false ->
      length batches < fuel ->
      main cfg env fuel
      = Some {| exit_code := 1;
                logged :=
                  Some (api_error (status r)
                          (repos_path org_name (N.of_nat (S (length batches))))
                          (match body_text r with Some t => t | None => [] end));
                written := None;
                fetches := pages_log cfg org_name (S (length batches)) |})
  /\ (forall (fuel : nat) (outcome : Outcome),
        main cfg env fuel = Some outcome ->
        (exit_code outcome <> 0%Z -> written outcome = None)
        /\ (forall catalog,
              written outcome = Some catalog ->
              exit_code outcome = 0%Z
              /\ exists listed log1 repos found,
                  listAllOrgRepos cfg env fuel org_name [] = Some (Ok listed, log1)
                  /\ filter_repos cfg listed = Ok repos
                  /\ process_repos cfg env repos [] log1
                     = (Ok found, fetches outcome)
                  /\ sort_items found = Ok (items catalog))).
Proof.
  intros Htoken Hsecret Horg Hname. split.
  - intros batches r fuel Hfull Hans Hok Hfuel.
    unfold main, build. rewrite Htoken, Horg. cbn [env_value env_string truthy].
    destruct secret as [|c1 secret']; [congruence|].
    destruct org_name as [|c2 org']; [congruence|].
    cbn [negb orb]. unfold listAllOrgRepos.
    replace fuel with (length batches + S (fuel - S (length batches))) by lia.
    change 1%N with (N.of_nat 1).
    rewrite (list_pages_full cfg env (c2 :: org') [] batches 0 [] _ Hfull).
    cbn [plus app list_pages].
    unfold gh, io_bind, fetch.
    unfold page_answer, page_request in Hans. rewrite app_nil_r in *.
    rewrite Hans, Hok. cbn [negb]. unfold try_catch, text.
    destruct (body_text r); reflexivity.
  - intros fuel outcome Hrun. split.
    + now apply (main_failure cfg env fuel).
    + intros catalog Hw.
      pose proof (main_written cfg env fuel outcome catalog Hrun Hw) as H.
      rewrite Horg in H. exact H.
Qed.

Lemma listing_failure_aborts_witness :
  main acme (environment refusing) 1
  = Some {| exit_code := 1;
            logged :=
              Some (Error (lit "GitHub API 403 on /orgs/acme/repos?per_page=100&page=1&type=public&sort=full_name: rate limit"));
            written := None;
            fetches := [page_request acme (lit "acme") 1] |}.
Proof.
  destruct (listing_failure_aborts test_host acme (environment refusing)
              (lit "secret") (lit "acme") eq_refl ltac:(discriminate)
              eq_refl ltac:(discriminate)) as [Habort _].
  apply (Habort [] {| status := 403; body_text := Some (lit "rate limit");
                      body_json := None |} 1).
  - intros k Hk. inversion Hk.
  - reflexivity.
  - reflexivity.
  - constructor.
Defined.

(** C8.  Every item of a stored catalog was normalised from a raw item
    found under one of the listed and filtered repositories, and its
    [repo_name] and [repo_url] are the [name] and the [html_url] of that
    repository.  This holds in every engine, whichever comparisons its
    sort makes, since a sort returns the elements that it was given. *)
Theorem catalog_items_repo_context (host : Host) (cfg : Config)
    (env : Environment) (fuel : nat) (outcome : Outcome) (catalog : Catalog)
    (item : CatalogItem) :
  sort_permutes host ->
  main cfg env fuel = Some outcome ->
  written outcome = Some catalog ->
  In item (items catalog) ->
  exists repo raw,
    (exists listed log1 repos,
        listAllOrgRepos cfg env fuel (env_string (org cfg)) []
        = Some (Ok listed, log1)
        /\ filter_repos cfg listed = Ok repos
        /\ In repo repos)
    /\ discovered_under cfg env repo raw
    /\ normalizeItem cfg raw repo = Ok item
    /\ get repo "name" = Ok (repo_name item)
    /\ get repo "html_url" = Ok (repo_url item).
Proof.
  intros Hengine Hrun Hw Hin.
  destruct (main_written cfg env fuel outcome catalog Hrun Hw)
    as [_ [listed [log1 [repos [found [Hlist [Hfilter [Hproc Hsort]]]]]]]].
  apply (sort_items_perm found _ Hengine) in Hsort.
  apply (Permutation_in _ (Permutation_sym Hsort)) in Hin.
  destruct (process_repos_items cfg env repos [] found log1 _ Hproc item Hin)
    as [[] | [repo [raw [Hrepo [Hdisc Hnorm]]]]].
  exists repo, raw.
  split; [exists listed, log1, repos; auto|].
  split; [exact Hdisc|]. split; [exact Hnorm|].
  now apply (normalizeItem_repo_fields cfg raw).
Qed.

Lemma catalog_items_repo_context_witness :
  exists outcome catalog item repo,
    main acme (environment two_labs) 1 = Some outcome
    /\ written outcome = Some catalog
    /\ item_count catalog = 1
    /\ items catalog = [item]
    /\ title item = VStr (lit "Intro")
    /\ repo_name item = VStr (lit "lab1")
    /\ get repo "name" = Ok (repo_name item)
    /\ get repo "html_url" = Ok (repo_url item).
Proof.
  assert (Hrun : exists outcome catalog item,
             main acme (environment two_labs) 1 = Some outcome
             /\ written outcome = Some catalog
             /\ item_count catalog = 1
             /\ items catalog = [item]
             /\ title item = VStr (lit "Intro")
             /\ repo_name item = VStr (lit "lab1")).
  { eexists _, _, _. vm_compute. repeat split; reflexivity. }
  destruct Hrun as [outcome [catalog [item [Hrun [Hw [Hcount [Hitems [Ht Hn]]]]]]]].
  destruct (catalog_items_repo_context test_host acme (environment two_labs) 1
              outcome catalog item test_host_sort_permutes Hrun Hw)
    as [repo [raw [_ [_ [_ [Hname Hurl]]]]]].
  - rewrite Hitems. now left.
  - exists outcome, catalog, item, repo. repeat split; assumption.
Defined.

(** * Further properties of the script *)

(** ** The lists of the environment *)

Lemma split_commas_nonempty (s : jsstring) : split_commas s <> [].
Proof.
  destruct s as [|c s]; simpl; [discriminate|].
  destruct (c =? comma)%N; [discriminate|].
  destruct (split_commas s); discriminate.
Qed.

Lemma split_commas_no_comma (s seg : jsstring) :
  In seg (split_commas s) -> ~ In comma seg.
Proof.
  revert seg. induction s as [|c s IH]; intros seg; simpl.
  - intros [<- | []]. auto.
  - destruct (N.eqb_spec c comma) as [->|Hc].
    + intros [<- | Hin]; [auto | now apply IH].
    + destruct (split_commas s) as [|first segs] eqn:E.
      * intros [<- | []]. intros [H | []]. congruence.
      * intros [<- | Hin].
        -- intros [H | H]; [congruence|]. apply (IH first); [now left | exact H].
        -- apply IH. now right.
Qed.

Lemma trim_start_incl (s : jsstring) (c : N) : In c (trim_start s) -> In c s.
Proof.
  induction s as [|d s IH]; simpl; [auto|].
  destruct (is_whitespace d); [intros H; right; auto | auto].
Qed.

Lemma trim_end_incl (s : jsstring) (c : N) : In c (trim_end s) -> In c s.
Proof.
  revert c. induction s as [|d s IH]; intros c; simpl; [auto|].
  destruct (trim_end s) as [|e kept].
  - destruct (is_whitespace d); [intros [] | intros [<- | []]; now left].
  - intros [<- | H]; [now left | right; now apply IH].
Qed.

Lemma trim_start_head (s : jsstring) : starts_with_whitespace (trim_start s) = false.
Proof.
  induction s as [|c s IH]; simpl; [reflexivity|].
  destruct (is_whitespace c) eqn:E; [exact IH | simpl; exact E].
Qed.

Lemma trim_end_head (s : jsstring) :
  starts_with_whitespace s = false -> starts_with_whitespace (trim_end s) = false.
Proof.
  destruct s as [|c s]; simpl; [reflexivity|]. intros Hc.
  destruct (trim_end s); [rewrite Hc|]; simpl; auto.
Qed.

Lemma trim_end_last (s : jsstring) : ends_in_whitespace (trim_end s) = false.
Proof.
  unfold ends_in_whitespace. induction s as [|c s IH]; simpl; [reflexivity|].
  destruct (trim_end s) as [|d kept] eqn:E.
  - destruct (is_whitespace c) eqn:Hc; simpl; auto.
  - exact IH.
Qed.

Lemma trim_end_kept (name : jsstring) :
  name <> [] -> ends_in_whitespace name = false -> trim_end name = name.
Proof.
  unfold ends_in_whitespace.
  induction name as [|c rest IH]; intros Hne Hend; [congruence|].
  destruct (list_eq_dec N.eq_dec rest []) as [-> | Hrest].
  - simpl in *. now rewrite Hend.
  - assert (Hlast : last (c :: rest) 0%N = last rest 0%N)
      by (destruct rest; [congruence | reflexivity]).
    rewrite Hlast in Hend. specialize (IH Hrest Hend).
    cbn [trim_end]. rewrite IH. destruct rest; [congruence | reflexivity].
Qed.

Lemma trim_clean (name : jsstring) : clean_name name -> trim name = name.
Proof.
  intros [Hne [_ [Hstart Hend]]]. unfold trim.
  assert (Hs : trim_start name = name).
  { destruct name as [|c name]; [reflexivity|]. simpl in *. now rewrite Hstart. }
  rewrite Hs. now apply trim_end_kept.
Qed.

Lemma split_commas_segment (name : jsstring) :
  ~ In comma name -> split_commas name = [name].
Proof.
  induction name as [|c name IH]; intros Hno; simpl; [reflexivity|].
  destruct (N.eqb_spec c comma) as [->|_]; [elim Hno; now left|].
  rewrite IH; [reflexivity | intros H; apply Hno; now right].
Qed.

Lemma split_commas_app (name rest : jsstring) :
  ~ In comma name ->
  split_commas (name ++ comma :: rest) = name :: split_commas rest.
Proof.
  induction name as [|c name IH]; intros Hno; simpl.
  - reflexivity.
  - destruct (N.eqb_spec c comma) as [->|_]; [elim Hno; now left|].
    rewrite IH; [reflexivity | intros H; apply Hno; now right].
Qed.

Lemma split_commas_join (names : list jsstring) :
  names <> [] -> Forall clean_name names ->
  split_commas (join_commas names) = names.
Proof.
  induction names as [|name rest IH]; intros Hne Hclean; [congruence|].
  inversion Hclean as [|? ? [_ [Hno _]] Hrest]; subst.
  destruct rest as [|next rest].
  - simpl. now apply split_commas_segment.
  - change (join_commas (name :: next :: rest))
      with (name ++ comma :: join_commas (next :: rest)).
    rewrite split_commas_app by exact Hno.
    rewrite IH; [reflexivity | discriminate | exact Hrest].
Qed.

(** X1.  Every name of a parsed list is not empty, has no comma and no
    whitespace at either end, and its code units occur in the variable. *)
Theorem parse_list_entries (e : option jsstring) (name : jsstring) :
  In name (parse_list e) ->
  clean_name name
  /\ (forall c, In c name -> exists s, e = Some s /\ In c s).
Proof.
  unfold parse_list. rewrite filter_In, in_map_iff.
  intros [[seg [<- Hseg]] Hne]. split.
  - repeat split.
    + destruct (trim seg); [discriminate | discriminate].
    + intros Hc. apply (split_commas_no_comma _ seg Hseg).
      apply trim_start_incl, trim_end_incl, Hc.
    + apply trim_end_head, trim_start_head.
    + apply trim_end_last.
  - intros c Hc. apply trim_end_incl, trim_start_incl in Hc.
    destruct e as [s|].
    + exists s. split; [reflexivity|].
      clear Hne. revert seg Hseg Hc. induction s as [|d s IH]; intros seg; simpl.
      * intros [<- | []] [].
      * destruct (d =? comma)%N.
        -- intros [<- | Hin]; [intros [] | intros Hc; right; eapply IH; eauto].
        -- destruct (split_commas s) as [|first segs] eqn:E.
           ++ intros [<- | []] [<- | []]. now left.
           ++ intros [<- | Hin].
              ** intros [<- | Hc]; [now left|]. right.
                 apply (IH first); [now left | exact Hc].
              ** intros Hc. right. apply (IH seg); [now right | exact Hc].
    + simpl in Hseg. destruct Hseg as [<- | []]. destruct Hc.
Qed.

Lemma parse_list_entries_witness :
  parse_list (Some (lit " lab1 ,,lab2, ")) = [lit "lab1"; lit "lab2"]
  /\ clean_name (lit "lab2").
Proof.
  split; [reflexivity|].
  apply (parse_list_entries (Some (lit " lab1 ,,lab2, "))).
  vm_compute. right. left. reflexivity.
Defined.

(** X2.  Clean names written with commas between them are read back as
    they are, in their order. *)
Theorem parse_list_join (names : list jsstring) :
  Forall clean_name names ->
  parse_list (Some (join_commas names)) = names.
Proof.
  intros Hclean. unfold parse_list.
  destruct names as [|name rest]; [reflexivity|].
  rewrite split_commas_join by (discriminate || assumption).
  induction Hclean as [|x l Hx Hl IH]; [reflexivity|].
  cbn [map filter]. rewrite (trim_clean x Hx).
  destruct x as [|c x]; [now destruct Hx|]. now rewrite IH.
Qed.

Lemma parse_list_join_witness :
  Forall clean_name [lit "lab1"; lit "intro lab"]
  /\ parse_list (Some (lit "lab1,intro lab")) = [lit "lab1"; lit "intro lab"].
Proof.
  assert (H : Forall clean_name [lit "lab1"; lit "intro lab"]).
  { repeat constructor; try discriminate; vm_compute; intuition discriminate. }
  split; [exact H|]. exact (parse_list_join _ H).
Defined.

Lemma parse_list_blank (e : option jsstring) : blank e -> parse_list e = [].
Proof.
  unfold parse_list. destruct e as [s|]; [|reflexivity]. cbn [blank].
  intros Hblank.
  assert (H : Forall (fun seg => trim seg = [])
                (split_commas s)).
  { induction Hblank as [|c s Hc Hs IH]; simpl.
    - repeat constructor.
    - destruct (N.eqb_spec c comma) as [->|Hne].
      + constructor; [reflexivity | exact IH].
      + destruct Hc as [Hc|Hc]; [contradiction|].
        destruct (split_commas s) as [|first segs].
        * constructor; [|constructor]. unfold trim. simpl. now rewrite Hc.
        * inversion IH as [|? ? Hfirst Hsegs]; subst.
          constructor; [|exact Hsegs]. unfold trim in *. simpl. now rewrite Hc. }
  induction H as [|seg segs Hseg _ IH]; [reflexivity|].
  cbn [map filter]. now rewrite Hseg.
Qed.

(** X3.  When [REPO_ALLOWLIST] is unset, empty, or holds only commas and
    whitespace, the filter passes exactly the names that the block-list
    does not hold. *)
Theorem blank_allowlist_is_open (gh_token org_var allow block : option jsstring)
    (name : jsstring) :
  blank allow ->
  (allowed (config_of_env gh_token org_var allow block) (VStr name) = true
   <-> ~ In name (parse_list block)).
Proof.
  intros Hblank. unfold allowed, config_of_env. cbn [allowlist blocklist].
  rewrite (parse_list_blank allow Hblank). cbn [andb].
  destruct (includes (parse_list block) (VStr name)) eqn:Hb.
  - apply includes_In in Hb. split; [discriminate | contradiction].
  - apply includes_not_In in Hb. split; auto.
Qed.

Lemma blank_allowlist_is_open_witness :
  allowed (config_of_env (Some (lit "secret")) (Some (lit "acme"))
             (Some (lit " , ")) (Some (lit "lab2"))) (VStr (lit "lab1")) = true.
Proof.
  apply (blank_allowlist_is_open (Some (lit "secret")) (Some (lit "acme"))
           (Some (lit " , ")) (Some (lit "lab2")) (lit "lab1")).
  - unfold blank, lit. simpl.
    repeat (constructor; [(left; reflexivity) || (right; reflexivity)|]).
    constructor.
  - vm_compute. intuition discriminate.
Defined.

(** ** The API helper *)

Lemma gh_calls_once (cfg : Config) (env : Environment) (path : jsstring)
    (log : list request) :
  snd (gh cfg env path log) = api_request cfg path :: log.
Proof.
  unfold gh, io_bind, fetch.
  destruct (world env log (api_request cfg path)) as [|r]; [reflexivity|].
  destruct (ok r); cbn [negb].
  - unfold json. destruct (body_json r); reflexivity.
  - unfold try_catch, text. destruct (body_text r); reflexivity.
Qed.

(** X4.  [gh] calls [fetch] once, on the API URL with the bearer header,
    whether it returns or throws.  It returns a value only for a response
    with a status in 200-299 whose body parses, and that value is the
    parsed body; a rejected call throws a [TypeError] and a body that does
    not parse a [SyntaxError]. *)
Theorem gh_outcome (cfg : Config) (env : Environment) (path : jsstring)
    (log : list request) :
  snd (gh cfg env path log) = api_request cfg path :: log
  /\ (forall v,
        fst (gh cfg env path log) = Ok v <->
        exists r, world env log (api_request cfg path) = Fulfilled r
                  /\ ok r = true /\ body_json r = Some v)
  /\ (world env log (api_request cfg path) = Rejected ->
      fst (gh cfg env path log) = Throw TypeError)
  /\ (forall r, world env log (api_request cfg path) = Fulfilled r ->
                ok r = true -> body_json r = None ->
                fst (gh cfg env path log) = Throw SyntaxError).
Proof.
  unfold gh, io_bind, fetch.
  destruct (world env log (api_request cfg path)) as [|r] eqn:Hw.
  - cbn. split; [reflexivity|]. split; [|split].
    + intros v. split; [discriminate | intros [r [H _]]; discriminate].
    + reflexivity.
    + intros r H. discriminate.
  - destruct (ok r) eqn:Hok; cbn [negb].
    + unfold json. destruct (body_json r) as [body|] eqn:Hj; cbn.
      * split; [reflexivity|]. split; [|split].
        -- intros v. split.
           ++ intros [= <-]. exists r. auto.
           ++ intros [r' [[= <-] [_ H]]]. congruence.
        -- discriminate.
        -- intros r' [= <-] _ H. congruence.
      * split; [reflexivity|]. split; [|split].
        -- intros v. split; [discriminate|].
           intros [r' [[= <-] [_ H]]]. congruence.
        -- discriminate.
        -- reflexivity.
    + unfold try_catch, text. destruct (body_text r); cbn.
      * split; [reflexivity|]. split; [|split].
        -- intros v. split; [discriminate|].
           intros [r' [[= <-] [H _]]]. congruence.
        -- discriminate.
        -- intros r' [= <-] H. congruence.
      * split; [reflexivity|]. split; [|split].
        -- intros v. split; [discriminate|].
           intros [r' [[= <-] [H _]]]. congruence.
        -- discriminate.
        -- intros r' [= <-] H. congruence.
Qed.

(** ** The repository filter on a listing *)

Lemma filter_repos_nullish (cfg : Config) (repos : list value) :
  existsb nullish repos = true -> filter_repos cfg repos = Throw TypeError.
Proof.
  induction repos as [|r rest IH]; simpl; [discriminate|].
  destruct r; simpl; try reflexivity; intros H;
    rewrite (IH H); reflexivity.
Qed.

(** X5.  On a listing without [null] entries the filter returns the
    entries whose [name] is allowed, in the order of the listing; a [null]
    entry makes it throw a [TypeError]. *)
Theorem filter_repos_keeps_allowed (cfg : Config) (repos : list value) :
  (forallb (fun r => negb (nullish r)) repos = true ->
   filter_repos cfg repos
   = Ok (filter (fun r => allowed cfg (get_opt r "name")) repos))
  /\ (existsb nullish repos = true -> filter_repos cfg repos = Throw TypeError).
Proof.
  split; [|apply filter_repos_nullish].
  induction repos as [|r rest IH]; simpl; [reflexivity|].
  intros H. apply andb_true_iff in H as [Hr Hrest].
  rewrite (IH Hrest).
  destruct r; simpl in *; try discriminate; reflexivity.
Qed.

(** ** More of the item normalizer *)

Lemma get_non_nullish (v : value) (k : string) :
  nullish v = false -> get v k = Ok (get_opt v k).
Proof. destruct v; simpl; try discriminate; reflexivity. Qed.

(** X6.  Each of the six array fields of an item is the raw value when
    that is an array, elements untouched, and the empty array for any other
    raw value: a scalar is not wrapped. *)
Theorem normalizeItem_array_fields (host : Host) (cfg : Config)
    (it repo : value) (item : CatalogItem) :
  normalizeItem cfg it repo = Ok item ->
  let field (k : string) :=
    match get_opt it k with VArr elems => elems | _ => [] end in
  topics item = field "topics"%string
  /\ software item = field "software"%string
  /\ keywords item = field "keywords"%string
  /\ learning_outcomes item = field "learning_outcomes"%string
  /\ blooms_verbs item = field "blooms_verbs"%string
  /\ blooms_levels item = field "blooms_levels"%string.
Proof.
  intros H.
  assert (Hit : nullish it = false).
  { destruct it; try reflexivity; discriminate H. }
  unfold normalizeItem in H.
  rewrite !(get_non_nullish it _ Hit) in H. cbn [bind] in H.
  repeat match type of H with
         | bind ?e _ = Ok _ =>
             let a := fresh "a" in
             let E := fresh "E" in
             apply bind_Ok in H as [a [E H]]
         end.
  injection H as <-. cbn. repeat split; reflexivity.
Qed.

Lemma normalizeItem_array_fields_witness :
  exists item,
    normalizeItem (host := test_host) acme
      (VObj [(lit "topics", VArr [VStr (lit "gis"); VNum 1%float]);
             (lit "software", VStr (lit "QGIS"))]) demo = Ok item
    /\ topics item = [VStr (lit "gis"); VNum 1%float]
    /\ software item = [].
Proof.
  destruct (normalizeItem (host := test_host) acme
              (VObj [(lit "topics", VArr [VStr (lit "gis"); VNum 1%float]);
                     (lit "software", VStr (lit "QGIS"))]) demo)
    as [item|e] eqn:Hrun; [|vm_compute in Hrun; discriminate Hrun].
  exists item. split; [reflexivity|].
  destruct (normalizeItem_array_fields test_host acme _ demo item Hrun)
    as [Htopics [Hsoftware _]].
  split; [exact Htopics | exact Hsoftware].
Defined.

Lemma normalizeItem_not_an_object (host : Host) (cfg : Config)
    (it repo : value) :
  match it with
  | VUndefined | VNull => normalizeItem cfg it repo = Throw TypeError
  | VObj _ => True
  | _ => normalizeItem cfg it repo = normalizeItem cfg (VObj []) repo
  end.
Proof. destruct it; try reflexivity; exact I. Qed.

Lemma bind_type_error {A B} (r : result A) (k : A -> result B) :
  throws_type_error r -> (forall a, throws_type_error (k a)) ->
  throws_type_error (bind r k).
Proof.
  intros Hr Hk e. destruct r as [a|e']; cbn [bind].
  - apply Hk.
  - intros [= <-]. now apply Hr.
Qed.

Lemma get_type_error (v : value) (k : string) : throws_type_error (get v k).
Proof. intros e. destruct v; simpl; congruence. Qed.

Lemma Ok_type_error {A} (a : A) : throws_type_error (Ok a).
Proof. intros e. discriminate. Qed.

Lemma ToString_type_error (host : Host) (v : value) :
  throws_type_error (ToString v).
Proof.
  revert v. fix IH 1. intros [| |[]| | |elems|props]; simpl;
    try apply Ok_type_error.
  - induction elems as [|x rest IHrest]; [apply Ok_type_error|].
    apply bind_type_error.
    + destruct (nullish x); [apply Ok_type_error | apply IH].
    + intros a. destruct rest; [apply Ok_type_error|].
      apply bind_type_error; [exact IHrest | intros; apply Ok_type_error].
  - destruct (existsb _ props); [intros e [= <-]; reflexivity | apply Ok_type_error].
Qed.

Lemma normalizeItem_type_error (host : Host) (cfg : Config) (it repo : value) :
  throws_type_error (normalizeItem cfg it repo).
Proof.
  assert (Hor : forall a b, throws_type_error b -> throws_type_error (or_try a b)).
  { intros a b Hb. unfold or_try. destruct (truthy a); [apply Ok_type_error | exact Hb]. }
  assert (Hbase : throws_type_error (site_base cfg repo)).
  { unfold site_base.
    repeat (apply bind_type_error;
            [first [apply get_type_error | apply ToString_type_error]|intros]).
    apply Ok_type_error. }
  assert (Hsyn : throws_type_error (synthesized_id it repo)).
  { unfold synthesized_id.
    repeat (apply bind_type_error;
            [first [apply get_type_error | apply ToString_type_error]|intros]).
    apply bind_type_error; [|intros; apply Ok_type_error].
    unfold call_toLowerCase. intros e.
    destruct (or_else _ _); congruence. }
  unfold normalizeItem.
  repeat first
    [ apply Ok_type_error
    | apply get_type_error
    | apply ToString_type_error
    | apply Hor
    | exact Hsyn
    | exact Hbase
    | apply bind_type_error; [|intros] ].
Qed.

(** X7.  The elements of [items] are not checked to be objects: numbers,
    booleans, strings and arrays each give the item of defaults that the
    empty object gives, and a [null] element makes the loop throw. *)
Theorem normalize_all_scalars (host : Host) (cfg : Config)
    (raws : list value) (repo : value) :
  (forall defaults,
      normalizeItem cfg (VObj []) repo = Ok defaults ->
      forallb (fun it => match it with
                         | VUndefined | VNull | VObj _ => false
                         | _ => true
                         end) raws = true ->
      normalize_all cfg raws repo = Ok (repeat defaults (length raws)))
  /\ (existsb nullish raws = true ->
      normalize_all cfg raws repo = Throw TypeError).
Proof.
  split.
  - intros defaults Hdefaults.
    induction raws as [|it rest IH]; cbn [forallb normalize_all]; [reflexivity|].
    intros H. apply andb_true_iff in H as [Hit Hrest].
    pose proof (normalizeItem_not_an_object host cfg it repo) as Hsame.
    destruct it; try discriminate Hit;
      rewrite Hsame, Hdefaults, (IH Hrest); reflexivity.
  - induction raws as [|it rest IH]; cbn [existsb normalize_all]; [discriminate|].
    intros H.
    pose proof (normalizeItem_not_an_object host cfg it repo) as Hnull.
    destruct it; cbn [nullish orb] in H; try (rewrite Hnull; reflexivity);
      rewrite (IH H);
      match goal with
      | |- context [normalizeItem cfg ?v repo] =>
          pose proof (normalizeItem_type_error host cfg v repo) as Herr;
          destruct (normalizeItem cfg v repo) as [item|e];
          [reflexivity | now rewrite (Herr e eq_refl)]
      end.
Qed.

Lemma normalize_all_scalars_witness :
  exists defaults,
    normalizeItem (host := test_host) acme (VObj []) demo = Ok defaults
    /\ normalize_all acme [VNum 1%float; VStr (lit "x"); VBool true] demo
       = Ok [defaults; defaults; defaults].
Proof.
  destruct (normalizeItem (host := test_host) acme (VObj []) demo)
    as [defaults|e] eqn:Hrun; [|vm_compute in Hrun; discriminate Hrun].
  exists defaults. split; [reflexivity|].
  exact (proj1 (normalize_all_scalars test_host acme
                  [VNum 1%float; VStr (lit "x"); VBool true] demo)
           defaults Hrun eq_refl).
Defined.

(** ** More of the whitespace replacement *)

Lemma replace_runs_clean (s : jsstring) (b : bool) :
  Forall (fun c => is_whitespace c = false) (replace_runs b s).
Proof.
  revert b. induction s as [|c s IH]; intros b; simpl; [constructor|].
  destruct (is_whitespace c) eqn:Hc.
  - destruct b; [apply IH | constructor; [reflexivity | apply IH]].
  - constructor; [exact Hc | apply IH].
Qed.

Lemma replace_runs_length (s : jsstring) (b : bool) :
  length (replace_runs b s) <= length s.
Proof.
  revert b. induction s as [|c s IH]; intros b; simpl; [lia|].
  destruct (is_whitespace c); [destruct b|]; simpl;
    try (specialize (IH true); lia); specialize (IH false); lia.
Qed.

(** X8.  The result of the replacement holds no whitespace and is not
    longer than the string; replacing again changes nothing. *)
Theorem replace_whitespace_clean (s : jsstring) :
  Forall (fun c => is_whitespace c = false) (replace_whitespace s)
  /\ length (replace_whitespace s) <= length s
  /\ replace_whitespace (replace_whitespace s) = replace_whitespace s.
Proof.
  unfold replace_whitespace. split; [apply replace_runs_clean|].
  split; [apply replace_runs_length|].
  apply replace_runs_no_whitespace, replace_runs_clean.
Qed.

(** ** More of the run *)

(** X9.  With [GH_TOKEN] or [ORG] unset or empty the run ends at once:
    exit status 1, the error about the missing variables, nothing written
    and no call of [fetch]. *)
Theorem main_missing_env (host : Host) (cfg : Config) (env : Environment)
    (fuel : nat) :
  token cfg = None \/ token cfg = Some [] \/ org cfg = None \/ org cfg = Some [] ->
  main cfg env fuel
  = Some {| exit_code := 1; logged := Some missing_env;
            written := None; fetches := [] |}.
Proof.
  unfold main. intros [H | [H | [H | H]]]; rewrite H; cbn [env_value truthy negb orb];
    try reflexivity; destruct (truthy (env_value (token cfg))); reflexivity.
Qed.

Lemma main_missing_env_witness :
  main (config_of_env None (Some (lit "acme")) None None)
       (environment two_labs) 0
  = Some {| exit_code := 1; logged := Some missing_env;
            written := None; fetches := [] |}.
Proof.
  apply (main_missing_env test_host). left. reflexivity.
Defined.

(** X10.  A run ends with exit status 0 or 1; status 0 goes with a stored
    catalog and no printed error, status 1 with a printed error and no
    catalog. *)
Theorem main_exit_code (host : Host) (cfg : Config) (env : Environment)
    (fuel : nat) (outcome : Outcome) :
  main cfg env fuel = Some outcome ->
  (exit_code outcome = 0%Z /\ logged outcome = None
   /\ exists catalog, written outcome = Some catalog)
  \/ (exit_code outcome = 1%Z /\ written outcome = None
      /\ exists e, logged outcome = Some e).
Proof.
  unfold main.
  destruct (negb (truthy (env_value (token cfg)))
            || negb (truthy (env_value (org cfg)))).
  { intros [= <-]. right. cbn. eauto. }
  destruct (build cfg env fuel) as [[[catalog|e] log]|]; [| |discriminate].
  - destruct (writeFile_ok env); intros [= <-]; [left | right]; cbn; eauto.
  - intros [= <-]. right. cbn. eauto.
Qed.

Lemma main_exit_code_witness :
  exists outcome,
    main acme (environment refusing) 1 = Some outcome
    /\ exit_code outcome = 1%Z /\ written outcome = None.
Proof.
  destruct (main acme (environment refusing) 1) as [outcome|] eqn:Hrun;
    [|vm_compute in Hrun; discriminate Hrun].
  exists outcome. split; [reflexivity|].
  destruct (main_exit_code test_host acme (environment refusing) 1 outcome Hrun)
    as [[_ [Hlogged _]] | [Hcode [Hw _]]].
  - vm_compute in Hrun. injection Hrun as <-. discriminate Hlogged.
  - split; assumption.
Defined.

(** X11.  The stored catalog names the organisation, carries the time of
    the clock, counts its items, and holds the items found in the
    repositories, all of them and no other, in every engine; it is stored
    only when the directory could be made and the file written. *)
Theorem main_catalog (host : Host) (cfg : Config) (env : Environment)
    (fuel : nat) (outcome : Outcome) (catalog : Catalog) :
  sort_permutes host ->
  main cfg env fuel = Some outcome ->
  written outcome = Some catalog ->
  catalog_org catalog = env_string (org cfg)
  /\ generated_at catalog = now env
  /\ item_count catalog = length (items catalog)
  /\ mkdir_ok env = true /\ writeFile_ok env = true
  /\ exists listed log1 repos found,
      listAllOrgRepos cfg env fuel (env_string (org cfg)) [] = Some (Ok listed, log1)
      /\ filter_repos cfg listed = Ok repos
      /\ process_repos cfg env repos [] log1 = (Ok found, fetches outcome)
      /\ Permutation found (items catalog)
      /\ item_count catalog = length found.
Proof.
  intros Hengine. unfold main, build.
  destruct (negb (truthy (env_value (token cfg)))
            || negb (truthy (env_value (org cfg)))).
  { intros [= <-]. discriminate. }
  destruct (listAllOrgRepos cfg env fuel (env_string (org cfg)) [])
    as [[[listed|e] log1]|]; try discriminate.
  2: { intros [= <-]. discriminate. }
  unfold io_bind, lift, io_ret.
  destruct (filter_repos cfg listed) as [repos|e] eqn:Hfilter.
  2: { intros [= <-]. discriminate. }
  destruct (process_repos cfg env repos [] log1) as [[found|e] log2] eqn:Hproc.
  2: { intros [= <-]. discriminate. }
  destruct (sort_items found) as [sorted|e] eqn:Hsort.
  2: { intros [= <-]. discriminate. }
  destruct (mkdir_ok env).
  2: { intros [= <-]. discriminate. }
  destruct (writeFile_ok env).
  2: { intros [= <-]. discriminate. }
  intros [= <-]. cbn [written exit_code fetches]. intros [= <-].
  cbn [catalog_org generated_at item_count items].
  pose proof (sort_items_perm found sorted Hengine Hsort) as Hperm.
  repeat split; try reflexivity.
  exists listed, log1, repos, found. repeat split; auto.
  symmetry. now apply Permutation_length.
Qed.

Lemma main_catalog_witness :
  exists outcome catalog,
    main acme (environment two_labs) 1 = Some outcome
    /\ written outcome = Some catalog
    /\ catalog_org catalog = lit "acme"
    /\ generated_at catalog = lit "2025-01-01T00:00:00.000Z"
    /\ item_count catalog = length (items catalog).
Proof.
  assert (Hrun : exists outcome catalog,
             main acme (environment two_labs) 1 = Some outcome
             /\ written outcome = Some catalog).
  { eexists _, _. vm_compute. split; reflexivity. }
  destruct Hrun as [outcome [catalog [Hrun Hw]]].
  destruct (main_catalog test_host acme (environment two_labs) 1 outcome catalog
              test_host_sort_permutes Hrun Hw) as [Horg [Hnow [Hcount _]]].
  exists outcome, catalog. repeat split; assumption.
Defined.

(** ** More of the repository lister *)

Section ListerFacts.

Context {host : Host}.
Variable cfg : Config.
Variable env : Environment.
Variable org_name : jsstring.
Variable log0 : list request.

Lemma list_pages_log (fuel : nat) :
  forall (j : nat) (acc : list value) out (log : list request),
    list_pages cfg env fuel org_name (N.of_nat (S j)) acc
      (pages_log cfg org_name j ++ log0) = Some (out, log) ->
    exists n, j < n <= j + fuel /\ log = pages_log cfg org_name n ++ log0.
Proof.
  induction fuel as [|fuel IH]; intros j acc out log; [discriminate|].
  pose proof (list_pages_turn cfg env org_name log0 j fuel acc) as Hturn.
  destruct (full_page (page_answer cfg env org_name log0 j)).
  - destruct Hturn as [acc' ->]. intros H.
    destruct (IH (S j) acc' out log H) as [n [Hn Hlog]].
    exists n. split; [lia | exact Hlog].
  - destruct Hturn as [out' ->]. intros [= <- <-].
    exists (S j). split; [lia | reflexivity].
Qed.

End ListerFacts.

(** X14.  Whatever the API answers, the lister asks for page 1, then page
    2, and so on, each page once and nothing else: at its end the log
    holds the requests for the pages 1 to [n], for some [n] that the fuel
    bounds. *)
Theorem listAllOrgRepos_log (host : Host) (cfg : Config) (env : Environment)
    (org_name : jsstring) (log0 : list request) (fuel : nat)
    (out : result (list value)) (log : list request) :
  listAllOrgRepos cfg env fuel org_name log0 = Some (out, log) ->
  exists n, 1 <= n <= fuel /\ log = pages_log cfg org_name n ++ log0.
Proof.
  unfold listAllOrgRepos. change 1%N with (N.of_nat 1). intros H.
  destruct (list_pages_log cfg env org_name log0 fuel 0 [] out log H)
    as [n [Hn Hlog]].
  exists n. split; [lia | exact Hlog].
Qed.

Lemma listAllOrgRepos_log_witness :
  exists out n,
    listAllOrgRepos acme (environment two_pages) 3 (lit "acme") []
    = Some (out, pages_log acme (lit "acme") n) /\ 1 <= n <= 3.
Proof.
  destruct (listAllOrgRepos acme (environment two_pages) 3 (lit "acme") [])
    as [[out log]|] eqn:Hrun; [|vm_compute in Hrun; discriminate Hrun].
  destruct (listAllOrgRepos_log test_host acme (environment two_pages)
              (lit "acme") [] 3 out log Hrun) as [n [Hn Hlog]].
  exists out, n. rewrite app_nil_r in Hlog. rewrite Hlog. split; [reflexivity | exact Hn].
Defined.

(** X13.  After full pages, a page whose call is rejected ends the lister
    with a [TypeError], one whose body does not parse with a
    [SyntaxError], and one whose body is JSON but neither an array nor a
    string with a [TypeError]; the entries of the pages before are not
    returned. *)
Theorem listAllOrgRepos_throws (host : Host) (cfg : Config) (env : Environment)
    (org_name : jsstring) (log0 : list request)
    (batches : list (list value)) (fuel : nat) :
  serves_full_pages cfg env org_name log0 batches ->
  length batches < fuel ->
  let answer := page_answer cfg env org_name log0 (length batches) in
  let log := pages_log cfg org_name (S (length batches)) ++ log0 in
  (answer = Rejected ->
   listAllOrgRepos cfg env fuel org_name log0 = Some (Throw TypeError, log))
  /\ (forall r, answer = Fulfilled r -> ok r = true -> body_json r = None ->
        listAllOrgRepos cfg env fuel org_name log0 = Some (Throw SyntaxError, log))
  /\ (forall r v, answer = Fulfilled r -> ok r = true -> body_json r = Some v ->
        match v with VArr _ | VStr _ => False | _ => True end ->
        listAllOrgRepos cfg env fuel org_name log0 = Some (Throw TypeError, log)).
Proof.
  intros Hfull Hfuel answer log. subst answer log.
  unfold listAllOrgRepos.
  replace fuel with (length batches + S (fuel - S (length batches))) by lia.
  change 1%N with (N.of_nat 1).
  rewrite (list_pages_full cfg env org_name log0 batches 0 [] _ Hfull).
  cbn [plus app list_pages]. unfold gh, io_bind, fetch, page_answer, page_request.
  split; [|split].
  - intros ->. reflexivity.
  - intros r -> Hok Hjson. rewrite Hok. cbn [negb]. unfold json.
    rewrite Hjson. reflexivity.
  - intros r v -> Hok Hjson Hv. rewrite Hok. cbn [negb]. unfold json.
    rewrite Hjson. cbn [io_ret]. destruct v; try contradiction; reflexivity.
Qed.

Lemma listAllOrgRepos_throws_witness :
  listAllOrgRepos acme (environment (fun _ _ => respond 200 (Some (VObj []))))
    1 (lit "acme") []
  = Some (Throw TypeError, [page_request acme (lit "acme") 1]).
Proof.
  assert (Hfull : serves_full_pages acme
                    (environment (fun _ _ => respond 200 (Some (VObj []))))
                    (lit "acme") [] []) by (intros k Hk; inversion Hk).
  pose proof (listAllOrgRepos_throws test_host acme _ (lit "acme") [] [] 1
                Hfull (Nat.lt_0_succ 0)) as H.
  cbv zeta in H. destruct H as [_ [_ H]].
  apply (H {| status := 200; body_text := Some (lit "Not Found");
              body_json := Some (VObj []) |} (VObj []));
    [reflexivity | reflexivity | reflexivity | exact I].
Defined.

(** ** More of the probe and of the loop over the repositories *)

Section ProbeFacts.

Context {host : Host}.
Variable cfg : Config.
Variable env : Environment.

Lemma probe_log (urls : list jsstring) :
  forall (data : value) (log : list request),
    exists pre post last,
      urls = pre ++ post
      /\ probe env urls data log = (Ok last, tried pre log)
      /\ (post <> [] -> has_items last = true)
      /\ (pre = [] -> urls = [] /\ last = data).
Proof.
  induction urls as [|u rest IH]; intros data log.
  - exists [], [], data. repeat split. congruence.
  - cbn [probe]. unfold io_bind. rewrite fetchIfExists_fetched.
    destruct (has_items (fetched env log u)) eqn:Hu.
    + exists [u], rest, (fetched env log u). repeat split; auto; discriminate.
    + destruct (IH (fetched env log u) (SiteGet u :: log))
        as [pre [post [last [-> [Hrun [Hpost _]]]]]].
      exists (u :: pre), post, last. split; [reflexivity|].
      split; [|split; [exact Hpost | discriminate]]. rewrite Hrun.
      unfold tried. cbn [map rev]. now rewrite <- app_assoc.
Qed.

Lemma io_bind_log {A B} (m : IO A) (k : A -> IO B) (log : list request) :
  snd (io_bind m k log) = snd (m log)
  \/ exists a, m log = (Ok a, snd (m log))
               /\ snd (io_bind m k log) = snd (k a (snd (m log))).
Proof.
  unfold io_bind. destruct (m log) as [[a|e] log']; [right | left; reflexivity].
  exists a. split; reflexivity.
Qed.

(** The calls of the fallback: at most the request to the contents API
    and the download. *)
Lemma fallback_log (repo : value) (log : list request) :
  exists extra,
    snd (fallback cfg env repo log) = extra ++ log
    /\ length extra <= 2
    /\ Forall (fun req => forall u, req <> SiteGet u) extra.
Proof.
  unfold fallback, io_bind, lift.
  destruct (get repo "name") as [name|e]; [|exists []; repeat split; auto].
  destruct (ToString name) as [name_s|e]; [|exists []; repeat split; auto].
  destruct (get repo "default_branch") as [branch|e];
    [|exists []; repeat split; auto].
  destruct (ToString (or_else branch (VStr (lit "main")))) as [branch_s|e];
    [|exists []; repeat split; auto].
  match goal with
  | |- context [gh cfg env ?p log] =>
      pose proof (gh_calls_once cfg env p log) as Hlog;
      destruct (gh cfg env p log) as [[meta|e] log'] eqn:Hgh
  end; cbn [snd] in Hlog; subst log'.
  - destruct (truthy (get_opt meta "download_url")).
    + unfold fetch.
      match goal with
      | |- context [world env ?l ?q] => destruct (world env l q) as [|r]
      end.
      * eexists [_; _]. cbn. repeat split; auto.
        repeat constructor; intros u; discriminate.
      * unfold text. destruct (body_text r); cbn;
          (eexists [_; _]; cbn; repeat split; auto;
           repeat constructor; intros u; discriminate).
    + eexists [_]. cbn. repeat split; auto.
      repeat constructor; intros u; discriminate.
  - eexists [_]. cbn. repeat split; auto.
    repeat constructor; intros u; discriminate.
Qed.



Lemma process_repos_app (first rest : list value) :
  forall (found : list CatalogItem) (log : list request),
    process_repos cfg env (first ++ rest) found log
    = io_bind (process_repos cfg env first found)
        (fun found' => process_repos cfg env rest found') log.
Proof.
  induction first as [|repo first IH]; intros found log; cbn [app process_repos].
  - reflexivity.
  - unfold io_bind at 1 2 3.
    destruct (process_repo cfg env repo found log) as [[found'|e] log'];
      [|reflexivity].
    rewrite IH. reflexivity.
Qed.

Lemma process_repos_extends (repos : list value) :
  forall (found found' : list CatalogItem) (log log' : list request),
    process_repos cfg env repos found log = (Ok found', log') ->
    exists fresh, found' = found ++ fresh.
Proof.
  induction repos as [|repo rest IH]; intros found found' log log';
    cbn [process_repos].
  - intros [= <- <-]. exists []. now rewrite app_nil_r.
  - intros H. apply io_bind_Ok in H as [mid [log1 [Hrepo Hrest]]].
    destruct (process_repo_items cfg env repo found mid log log1 Hrepo)
      as [fresh [-> _]].
    destruct (IH _ _ _ _ Hrest) as [more ->].
    exists (fresh ++ more). now rewrite app_assoc.
Qed.

End ProbeFacts.

(** X16.  The probe fetches the candidates in their order, each at most
    once, and stops before the last one only at a document with items;
    without candidates it returns what it started with. *)
Theorem probe_fetches_in_order (host : Host) (env : Environment)
    (urls : list jsstring) (data : value) (log : list request) :
  exists pre post last,
    urls = pre ++ post
    /\ probe env urls data log = (Ok last, tried pre log)
    /\ length (tried pre log) <= length urls + length log
    /\ (post <> [] -> has_items last = true)
    /\ (urls = [] -> last = data).
Proof.
  destruct (probe_log env urls data log)
    as [pre [post [last [Hsplit [Hrun [Hpost Hpre]]]]]].
  exists pre, post, last. split; [exact Hsplit|]. split; [exact Hrun|].
  split; [|split; [exact Hpost|]].
  - unfold tried. rewrite Hsplit, !length_app, length_rev, length_map. lia.
  - intros ->. destruct pre; [now apply Hpre | discriminate].
Qed.

(** X17.  When no candidate has items, the turn for the repository makes,
    after the candidates, at most two more calls, none of them to a site
    candidate, and leaves the items found so far as they are, whatever
    the answers to those calls. *)
Theorem fallback_is_inert (host : Host) (cfg : Config) (env : Environment)
    (repo : value) (base : jsstring) (found : list CatalogItem)
    (log : list request) :
  site_base cfg repo = Ok base ->
  none_with_items env log (candidates base) ->
  exists extra,
    process_repo cfg env repo found log
    = (Ok found, extra ++ tried (candidates base) log)
    /\ length extra <= 2
    /\ Forall (fun req => forall u, req <> SiteGet u) extra.
Proof.
  intros Hbase Hnone.
  destruct (probe_none env (candidates base) VNull log Hnone)
    as [last [Hrun Hlast]].
  unfold process_repo, io_bind, lift. rewrite Hbase, Hrun, (Hlast eq_refl).
  unfold try_catch.
  destruct (fallback_log cfg env repo (tried (candidates base) log))
    as [extra [Hlog Hextra]].
  exists extra. split; [|exact Hextra].
  destruct (fallback cfg env repo _) as [[[]|e] log'];
    cbn in *; subst log'; reflexivity.
Qed.

Lemma fallback_is_inert_witness :
  exists extra,
    process_repo (host := test_host) acme (environment two_labs)
      (repo_object "lab2") [] []
    = (Ok [], extra ++ tried (candidates (lit "https://acme.github.io/lab2/")) [])
    /\ length extra <= 2.
Proof.
  destruct (fallback_is_inert test_host acme (environment two_labs)
              (repo_object "lab2") (lit "https://acme.github.io/lab2/") [] []
              eq_refl) as [extra [Hrun [Hlen _]]].
  - intros pre u post E.
    assert (Hin : In u (candidates (lit "https://acme.github.io/lab2/")))
      by (rewrite E; apply in_or_app; right; now left).
    destruct Hin as [<- | [<- | []]]; reflexivity.
  - exists extra. split; assumption.
Defined.

(** X15.  The loop over the repositories only adds items, after those
    found before, and processing a listing is processing its first part
    and then the rest. *)
Theorem process_repos_accumulates (host : Host) (cfg : Config)
    (env : Environment) :
  (forall repos found found' log log',
      process_repos cfg env repos found log = (Ok found', log') ->
      exists fresh, found' = found ++ fresh)
  /\ (forall first rest found log,
        process_repos cfg env (first ++ rest) found log
        = io_bind (process_repos cfg env first found)
            (fun found' => process_repos cfg env rest found') log).
Proof.
  split.
  - intros repos found found' log log'. apply process_repos_extends.
  - apply process_repos_app.
Qed.

Section SiteRequests.

Context {host : Host}.
Variable cfg : Config.
Variable env : Environment.


Lemma filter_repos_In (listed repos : list value) (repo : value) :
  filter_repos cfg listed = Ok repos -> In repo repos ->
  In repo listed /\ exists name, get repo "name" = Ok name
                                 /\ allowed cfg name = true.
Proof.
  revert repos. induction listed as [|r rest IH]; intros repos; cbn [filter_repos].
  - intros [= <-] [].
  - intros H. apply bind_Ok in H as [name [Hname H]].
    apply bind_Ok in H as [kept [Hkept [= <-]]].
    destruct (allowed cfg name) eqn:Hallowed.
    + intros [<- | Hin].
      * split; [now left | eauto].
      * destruct (IH kept Hkept Hin) as [Hl Hn]. split; [now right | exact Hn].
    + intros Hin. destruct (IH kept Hkept Hin) as [Hl Hn].
      split; [now right | exact Hn].
Qed.


End SiteRequests.



(** ** More of the sort *)

Section SortFacts.

Context {host : Host}.
Hypothesis locale_consistent : consistent localeCompare.

Lemma stable_sort_of_sorted (l : list CatalogItem) :
  forallb sortable l = true -> StronglySorted catalog_le l ->
  stable_sort l = l.
Proof.
  induction l as [|x rest IH]; intros Hl Hsorted; [reflexivity|].
  cbn [forallb] in Hl. apply andb_true_iff in Hl as [Hx Hrest].
  apply StronglySorted_inv in Hsorted as [Hsorted Hall].
  cbn [stable_sort]. rewrite (IH Hrest Hsorted).
  destruct rest as [|y rest]; [reflexivity|].
  cbn [forallb] in Hrest. apply andb_true_iff in Hrest as [Hy _].
  cbn [insert_item]. inversion Hall as [|? ? Hxy _]; subst.
  destruct (Z.ltb_spec (order y x) 0) as [Hlt|]; [|reflexivity].
  destruct (order_lt locale_consistent x y Hx Hy Hlt) as [Hyx Hnot].
  exfalso. revert Hxy Hnot. unfold catalog_le, tied in *.
  pose proof (cmp_flip _ _ locale_consistent (code_key x) (code_key y)).
  pose proof (cmp_flip _ _ locale_consistent (title_key x) (title_key y)).
  destruct (Z.eqb_spec (localeCompare (code_key x) (code_key y)) 0);
    destruct (Z.eqb_spec (localeCompare (title_key x) (title_key y)) 0);
    cbn [andb]; intros; try discriminate; lia.
Qed.

End SortFacts.

(** X19.  Sorting is idempotent on items of the data model: sorting the
    sorted items returns them as they are. *)
Theorem sort_items_idempotent (host : Host) (l : list CatalogItem) :
  consistent localeCompare ->
  forallb sortable l = true ->
  exists sorted, sort_items l = Ok sorted /\ sort_items sorted = Ok sorted.
Proof.
  intros Hcons Hl.
  destruct (sort_items_sorted Hcons l Hl) as [sorted [Hsort [Hperm [Hsorted _]]]].
  exists sorted. split; [exact Hsort|].
  assert (Hs : forallb sortable sorted = true).
  { rewrite forallb_forall in *. intros z Hz. apply Hl.
    eapply Permutation_in; [apply Permutation_sym; exact Hperm | exact Hz]. }
  rewrite (sort_items_sortable sorted Hs).
  now rewrite (stable_sort_of_sorted Hcons sorted Hs Hsorted).
Qed.

Lemma sort_items_idempotent_witness :
  exists sorted,
    sort_items (host := test_host) four_items = Ok sorted
    /\ sort_items (host := test_host) sorted = Ok sorted.
Proof.
  apply (sort_items_idempotent test_host four_items test_host_consistent).
  reflexivity.
Defined.

(** X20.  The comparison function throws a [TypeError] when the course
    code of its first argument is truthy and not a string, and when the two
    codes compare equal and the title of its first argument is not a
    string; an array of one item is sorted without any comparison,
    whatever the item holds. *)
Theorem compare_items_throws (host : Host) (a b : CatalogItem) :
  (truthy (course_code a) = true -> is_string (course_code a) = false ->
   compare_items a b = Throw TypeError)
  /\ (sortable b = true ->
      is_string (course_code a) || negb (truthy (course_code a)) = true ->
      localeCompare (code_key a) (code_key b) = 0%Z ->
      is_string (title a) = false ->
      compare_items a b = Throw TypeError)
  /\ sort_items [a] = Ok [a].
Proof.
  split; [|split; [|reflexivity]].
  - intros Ht Hs. unfold compare_items, or_else. rewrite Ht.
    destruct (course_code a); try discriminate; reflexivity.
  - intros Hb Ha Hcmp Htitle. unfold compare_items.
    unfold sortable in Hb. apply andb_true_iff in Hb as [Hcb _].
    assert (Hkey : forall v, is_string v || negb (truthy v) = true ->
                             or_else v (VStr []) = VStr (string_of v)).
    { intros v Hv. unfold or_else.
      destruct v as [| |x|f|s|elems|props]; try reflexivity;
        try discriminate; cbn [is_string orb] in Hv;
        try (apply negb_true_iff in Hv; now rewrite Hv).
      destruct s; reflexivity. }
    rewrite (Hkey _ Ha), (Hkey _ Hcb).
    cbn [call_localeCompare ToString bind].
    unfold code_key in Hcmp. rewrite Hcmp. cbn.
    destruct (title a); try discriminate; reflexivity.
Qed.

(** ** The filter and the catalog *)

Lemma allowed_lists (cfg : Config) (name : jsstring) :
  allowed cfg (VStr name) = true ->
  ~ In name (blocklist cfg)
  /\ (allowlist cfg = [] \/ In name (allowlist cfg)).
Proof.
  unfold allowed.
  destruct (includes (blocklist cfg) (VStr name)) eqn:Hb.
  - destruct (_ && _); discriminate.
  - apply includes_not_In in Hb.
    destruct (includes (allowlist cfg) (VStr name)) eqn:Ha.
    + apply includes_In in Ha. auto.
    + destruct (allowlist cfg); [auto | discriminate].
Qed.

(** X21.  No item of a stored catalog comes from a repository that the
    lists exclude, in any engine: the [repo_name] of every item passes the
    filter, so it is not on the block-list, and it is on the allow-list
    when that is not empty. *)
Theorem catalog_items_allowed (host : Host) (cfg : Config) (env : Environment)
    (fuel : nat) (outcome : Outcome) (catalog : Catalog) (item : CatalogItem) :
  sort_permutes host ->
  main cfg env fuel = Some outcome ->
  written outcome = Some catalog ->
  In item (items catalog) ->
  allowed cfg (repo_name item) = true
  /\ (forall name, repo_name item = VStr name ->
                   ~ In name (blocklist cfg)
                   /\ (allowlist cfg = [] \/ In name (allowlist cfg))).
Proof.
  intros Hengine Hrun Hw Hin.
  destruct (main_written cfg env fuel outcome catalog Hrun Hw)
    as [_ [listed [log1 [repos [found [Hlist [Hfilter [Hproc Hsort]]]]]]]].
  apply (sort_items_perm found _ Hengine) in Hsort.
  apply (Permutation_in _ (Permutation_sym Hsort)) in Hin.
  destruct (process_repos_items cfg env repos [] found log1 _ Hproc item Hin)
    as [[] | [repo [raw [Hrepo [_ Hnorm]]]]].
  destruct (filter_repos_In cfg listed repos repo Hfilter Hrepo)
    as [_ [name [Hname Hallowed]]].
  destruct (normalizeItem_repo_fields cfg raw repo item Hnorm) as [Hfield _].
  assert (Heq : repo_name item = name) by congruence.
  rewrite Heq. split; [exact Hallowed|].
  intros s ->. now apply allowed_lists.
Qed.

Lemma catalog_items_allowed_witness :
  exists outcome catalog item,
    main acme (environment two_labs) 1 = Some outcome
    /\ written outcome = Some catalog
    /\ In item (items catalog)
    /\ allowed acme (repo_name item) = true.
Proof.
  assert (Hrun : exists outcome catalog item,
             main acme (environment two_labs) 1 = Some outcome
             /\ written outcome = Some catalog
             /\ items catalog = [item]).
  { eexists _, _, _. vm_compute. repeat split; reflexivity. }
  destruct Hrun as [outcome [catalog [item [Hrun [Hw Hitems]]]]].
  assert (Hin : In item (items catalog)) by (rewrite Hitems; now left).
  destruct (catalog_items_allowed test_host acme (environment two_labs) 1
              outcome catalog item test_host_sort_permutes Hrun Hw Hin)
    as [Hallowed _].
  exists outcome, catalog, item. repeat split; assumption.
Defined.
